(** * mdparser: the lexer and the recursive-descent parser

    A shallow embedding of [src/lexer.ts], [src/utils.ts] and
    [src/parser.ts].  JavaScript strings are [string]s, the scan position
    and every length are integers ([Z], so that [input.length - 1] is [-1]
    on the empty input, as in the source), a value read from a string by
    index is a [JsChar] (a one-character string, or [undefined] when the
    index is out of range), and a thrown message is a value of [Error]. *)

From Stdlib Require Import ZArith QArith Qround String Ascii List Bool Lia.
Import ListNotations.

Set Warnings "-register-all".

Open Scope string_scope.
Open Scope Z_scope.

(** ** Values read from a string *)

Inductive JsChar : Type :=
| Undefined
| Char (c : ascii).

(** String coercion, as performed by [s += x] and by [RegExp.test]. *)
Definition toStr (x : JsChar) : string :=
  match x with
  | Undefined => "undefined"
  | Char c => String c ""
  end.

Definition len (s : string) : Z := Z.of_nat (String.length s).

(** [s[i]] *)
Definition charAt (s : string) (i : Z) : JsChar :=
  if i <? 0 then Undefined
  else match String.get (Z.to_nat i) s with
       | Some c => Char c
       | None => Undefined
       end.

(** ** utils.ts *)

Definition inRange (lo hi c : ascii) : bool :=
  ((nat_of_ascii lo <=? nat_of_ascii c) && (nat_of_ascii c <=? nat_of_ascii hi))%nat.

(** The character class [[A-Za-z0-9]]. *)
Definition alnumClass (c : ascii) : bool :=
  inRange "A" "Z" c || inRange "a" "z" c || inRange "0" "9" c.

Fixpoint allClass (s : string) : bool :=
  match s with
  | EmptyString => true
  | String c s' => alnumClass c && allClass s'
  end.

(** [/^[A-Za-z0-9]+$/.test(str)]: one or more characters, all in the class. *)
Definition isAlphaNumeric (str : string) : bool :=
  match str with
  | EmptyString => false
  | String _ _ => allClass str
  end.

(** ** Tokens *)

Inductive TokenType : Type :=
| STRING | SPACE | NEWLINE | BOLD | ITALIC | UNORDEREDLI
| HEADER1 | HEADER2 | HEADER3 | HEADER4 | HEADER5
| MONOSPACE | CODE | UNTYPED | EOF | LINEBREAK.

Definition TokenType_eqb (a b : TokenType) : bool :=
  match a, b with
  | STRING, STRING | SPACE, SPACE | NEWLINE, NEWLINE | BOLD, BOLD
  | ITALIC, ITALIC | UNORDEREDLI, UNORDEREDLI
  | HEADER1, HEADER1 | HEADER2, HEADER2 | HEADER3, HEADER3
  | HEADER4, HEADER4 | HEADER5, HEADER5
  | MONOSPACE, MONOSPACE | CODE, CODE | UNTYPED, UNTYPED | EOF, EOF
  | LINEBREAK, LINEBREAK => true
  | _, _ => false
  end.

Record Token : Type := mkToken {
  tokenValue : string;
  tokenType : TokenType
}.

(** The two thrown messages: [`Invalid character: `c` at position p`] of the
    lexer and [`Invalid token: ${JSON.stringify(token)}`] of the parser. *)
Inductive Error : Type :=
| InvalidCharacter (c : JsChar) (pos : Z)
| InvalidToken (t : Token).

Inductive Result (A : Type) : Type :=
| Ok (a : A)
| Throw (e : Error).
Arguments Ok {A} a.
Arguments Throw {A} e.

Definition NUL : ascii := Ascii.zero.
Definition LF : ascii := ascii_of_nat 10.

(** ** lexer.ts *)

Module Lexer.

Record t : Type := mk {
  position : Z;
  input : string;
  currentChar : JsChar;
  currentToken : Token
}.

Definition untyped : Token := mkToken "" UNTYPED.

(** [new Lexer(input)] *)
Definition new (inp : string) : t :=
  {| position := 0; input := inp; currentChar := charAt inp 0;
     currentToken := untyped |}.

Definition peek (stroke : Z) (l : t) : string :=
  if len (input l) - 1 >=? position l + stroke
  then toStr (charAt (input l) (position l + stroke))
  else "".

(** The body of the [while (p < start + size)] loop of [peekSequence]; [n]
    counts the iterations that remain. *)
Fixpoint peekSequence_loop (n : nat) (p : Z) (s : string) (l : t) : string :=
  match n with
  | O => s
  | S n' =>
      if position l =? len (input l) - 1 then s
      else peekSequence_loop n' (p + 1) (s ++ toStr (charAt (input l) p)) l
  end.

Definition peekSequence (size : nat) (l : t) : string :=
  peekSequence_loop size (position l) "" l.

Definition invalidCharacterError {A} (l : t) : Result A :=
  Throw (InvalidCharacter (currentChar l) (position l)).

Definition advance (stroke : Z) (l : t) : t :=
  if position l + stroke >? len (input l) - 1
  then {| position := position l; input := input l;
          currentChar := Char NUL; currentToken := currentToken l |}
  else {| position := position l + stroke; input := input l;
          currentChar := charAt (input l) (position l + stroke);
          currentToken := currentToken l |}.

Definition getHeaderToken (l : t) : Token * t :=
  if (peekSequence 5 l =? "#####")%string then (mkToken "#####" HEADER5, advance 5 l)
  else if (peekSequence 4 l =? "####")%string then (mkToken "####" HEADER4, advance 4 l)
  else if (peekSequence 3 l =? "###")%string then (mkToken "###" HEADER3, advance 3 l)
  else if (peekSequence 2 l =? "##")%string then (mkToken "##" HEADER2, advance 2 l)
  else (mkToken "#" HEADER1, advance 1 l).

(** The [while (isAlphaNumeric(this.currentChar))] loop of [getTextToken].
    The loop always ends (lemma [getTextToken_loop_exit] below): [fuel] only
    makes the recursion structural. *)
Fixpoint getTextToken_loop (fuel : nat) (s : string) (l : t) : string * t :=
  match fuel with
  | O => (s, l)
  | S fuel' =>
      if isAlphaNumeric (toStr (currentChar l))
      then getTextToken_loop fuel' (s ++ toStr (currentChar l)) (advance 1 l)
      else (s, l)
  end.

Definition textFuel (l : t) : nat := S (S (Z.to_nat (len (input l) - position l))).

Definition getTextToken (l : t) : Token * t :=
  let (s, l') := getTextToken_loop (textFuel l) "" l in
  (mkToken s STRING, l').

Definition getCodeToken (l : t) : Token * t :=
  if (peek 1 l =? "`")%string && (peek 2 l =? "`")%string
  then (mkToken "```" CODE, advance 3 l)
  else (mkToken "`" MONOSPACE, advance 1 l).

Definition setToken (r : Token * t) : Token * t :=
  let (tok, l) := r in
  (tok, {| position := position l; input := input l;
           currentChar := currentChar l; currentToken := tok |}).

(** The [switch (this.currentChar)] of [getNextToken], before the final
    assignment to [this.currentToken]. *)
Definition classify (l : t) : Result (Token * t) :=
  match currentChar l with
  | Undefined => Ok (getTextToken l)
  | Char c =>
      if Ascii.eqb c NUL then Ok (mkToken (String NUL "") EOF, l)
      else if Ascii.eqb c " " then Ok (mkToken " " SPACE, advance 1 l)
      else if Ascii.eqb c "_" then Ok (mkToken "_" ITALIC, advance 1 l)
      else if Ascii.eqb c "*" then
        if (peek 1 l =? "*")%string then Ok (mkToken "**" BOLD, advance 2 l)
        else invalidCharacterError l
      else if Ascii.eqb c "-" then
        if (peek 1 l =? "-")%string && (peek 2 l =? "-")%string
        then Ok (mkToken "---" LINEBREAK, advance 3 l)
        else Ok (mkToken "-" UNORDEREDLI, advance 1 l)
      else if Ascii.eqb c "#" then Ok (getHeaderToken l)
      else if Ascii.eqb c "`" then Ok (getCodeToken l)
      else if Ascii.eqb c LF then Ok (mkToken (String LF "") NEWLINE, advance 1 l)
      else Ok (getTextToken l)
  end.

Definition getNextToken (l : t) : Result (Token * t) :=
  match classify l with
  | Ok r => Ok (setToken r)
  | Throw e => Throw e
  end.

(** [n] successive calls of [getNextToken]: the tokens returned, in order,
    and the lexer afterwards. *)
Fixpoint tokens (n : nat) (l : t) : Result (list Token * t) :=
  match n with
  | O => Ok ([], l)
  | S n' =>
      match getNextToken l with
      | Throw e => Throw e
      | Ok (tok, l') =>
          match tokens n' l' with
          | Ok (ts, l'') => Ok (tok :: ts, l'')
          | Throw e => Throw e
          end
      end
  end.

End Lexer.

(** ** parser.ts *)

Inductive NodeType : Type :=
| RootNode | UnorderedList | UnorderedListRoot | UnorderedListItem
| OrderedList | StringNode | SpaceNode | Bold | Italic | Code | Monospace
| Header1 | Header2 | Header3 | Header4 | Header5 | Void | NewLineNode.

(** An [ASTNode] object; [languageName] is present on [Code] nodes only. *)
Inductive ASTNode : Type :=
| Node (nodeType : NodeType) (token : Token) (languageName : option string)
       (children : list ASTNode).

Definition nodeType (n : ASTNode) : NodeType :=
  match n with Node ty _ _ _ => ty end.
Definition token (n : ASTNode) : Token :=
  match n with Node _ tok _ _ => tok end.
Definition languageName (n : ASTNode) : option string :=
  match n with Node _ _ lang _ => lang end.
Definition children (n : ASTNode) : list ASTNode :=
  match n with Node _ _ _ ch => ch end.

(** The name of an enum member, [TokenType[x]]. *)
Definition TokenType_name (x : TokenType) : string :=
  match x with
  | STRING => "STRING" | SPACE => "SPACE" | NEWLINE => "NEWLINE"
  | BOLD => "BOLD" | ITALIC => "ITALIC" | UNORDEREDLI => "UNORDEREDLI"
  | HEADER1 => "HEADER1" | HEADER2 => "HEADER2" | HEADER3 => "HEADER3"
  | HEADER4 => "HEADER4" | HEADER5 => "HEADER5"
  | MONOSPACE => "MONOSPACE" | CODE => "CODE" | UNTYPED => "UNTYPED"
  | EOF => "EOF" | LINEBREAK => "LINEBREAK"
  end.

(** [xs.includes(x)] *)
Definition includes (xs : list TokenType) (x : TokenType) : bool :=
  existsb (TokenType_eqb x) xs.

Module Parser.

Record t : Type := mk {
  lexer : Lexer.t;
  currentToken : Token
}.

(** What a call does to the parser: it returns a value in a new state, it
    throws, or (in this model only) it is cut off after [fuel] nested calls
    and loop iterations. *)
Inductive Outcome (A : Type) : Type :=
| Return (a : A) (p : t)
| Raise (e : Error)
| OutOfFuel.
Arguments Return {A} a p.
Arguments Raise {A} e.
Arguments OutOfFuel {A}.

Definition M (A : Type) : Type := t -> Outcome A.

Definition ret {A} (a : A) : M A := fun p => Return a p.

Definition bind {A B} (m : M A) (k : A -> M B) : M B :=
  fun p =>
    match m p with
    | Return a p' => k a p'
    | Raise e => Raise e
    | OutOfFuel => OutOfFuel
    end.

Definition raise {A} (e : Error) : M A := fun _ => Raise e.
Definition outOfFuel {A} : M A := fun _ => OutOfFuel.

(** [this.currentToken] *)
Definition current : M Token := fun p => Return (currentToken p) p.

#[local] Notation "x <- m ;; k" := (bind m (fun x => k))
  (at level 61, m at next level, right associativity).
#[local] Notation "m ;;; k" := (bind m (fun _ => k))
  (at level 61, right associativity).

(** [new Parser(lexer)] *)
Definition new (l : Lexer.t) : Result t :=
  match Lexer.getNextToken l with
  | Ok (tok, l') => Ok {| lexer := l'; currentToken := tok |}
  | Throw e => Throw e
  end.

Definition invalidTokenError {A} : M A :=
  fun p => Raise (InvalidToken (currentToken p)).

Definition eat (ty : TokenType) : M unit :=
  fun p =>
    if TokenType_eqb (tokenType (currentToken p)) ty then
      match Lexer.getNextToken (lexer p) with
      | Ok (tok, l') => Return tt {| lexer := l'; currentToken := tok |}
      | Throw e => Raise e
      end
    else invalidTokenError p.

(** The [while] loop of [allCharsStmt]; [value] is [node.token.tokenValue]. *)
Fixpoint allCharsStmt_loop (fuel : nat) (value : string) : M string :=
  match fuel with
  | O => outOfFuel
  | S fuel' =>
      tok <- current ;;
      if includes [STRING; SPACE] (tokenType tok) then
        eat (tokenType tok) ;;;
        allCharsStmt_loop fuel' (value ++ tokenValue tok)
      else ret value
  end.

Definition allCharsStmt (fuel : nat) : M ASTNode :=
  value <- allCharsStmt_loop fuel "" ;;
  ret (Node StringNode (mkToken value STRING) None []).

Fixpoint textStmt (fuel : nat) : M ASTNode :=
  match fuel with
  | O => outOfFuel
  | S fuel' =>
      tok <- current ;;
      match tokenType tok with
      | STRING =>
          eat STRING ;;;
          textStmt fuel' ;;;
          ret (Node StringNode tok None [])
      | NEWLINE =>
          eat NEWLINE ;;;
          ret (Node NewLineNode tok None [])
      | _ => ret (Node StringNode (mkToken "" STRING) None [])
      end
  end.

Fixpoint boldStmt (fuel : nat) : M ASTNode :=
  match fuel with
  | O => outOfFuel
  | S fuel' =>
      tok <- current ;;
      eat BOLD ;;;
      nodes <- innerBoldStmt fuel' [] ;;
      eat BOLD ;;;
      ret (Node Bold tok None nodes)
  end
with italicStmt (fuel : nat) : M ASTNode :=
  match fuel with
  | O => outOfFuel
  | S fuel' =>
      tok <- current ;;
      eat ITALIC ;;;
      nodes <- innerItalicStmt fuel' [] ;;
      eat ITALIC ;;;
      ret (Node Italic tok None nodes)
  end
with innerItalicStmt (fuel : nat) (nodes : list ASTNode) : M (list ASTNode) :=
  match fuel with
  | O => outOfFuel
  | S fuel' =>
      tok <- current ;;
      if includes [BOLD; STRING] (tokenType tok) then
        match tokenType tok with
        | BOLD =>
            n <- boldStmt fuel' ;; innerItalicStmt fuel' (nodes ++ [n])
        | STRING =>
            n <- allCharsStmt fuel' ;; innerItalicStmt fuel' (nodes ++ [n])
        | _ => innerItalicStmt fuel' nodes
        end
      else ret nodes
  end
with innerBoldStmt (fuel : nat) (nodes : list ASTNode) : M (list ASTNode) :=
  match fuel with
  | O => outOfFuel
  | S fuel' =>
      tok <- current ;;
      if includes [ITALIC; STRING] (tokenType tok) then
        match tokenType tok with
        | ITALIC =>
            n <- italicStmt fuel' ;; innerBoldStmt fuel' (nodes ++ [n])
        | STRING =>
            n <- allCharsStmt fuel' ;; innerBoldStmt fuel' (nodes ++ [n])
        | _ => innerBoldStmt fuel' nodes
        end
      else ret nodes
  end.

Definition monoSpaceStmt (fuel : nat) : M ASTNode :=
  tok <- current ;;
  eat MONOSPACE ;;;
  n <- allCharsStmt fuel ;;
  eat MONOSPACE ;;;
  ret (Node Monospace tok None [n]).

Definition codeStmt (fuel : nat) : M ASTNode :=
  tok <- current ;;
  eat CODE ;;;
  lang <- current ;;
  eat STRING ;;;
  eat NEWLINE ;;;
  n <- allCharsStmt fuel ;;
  eat CODE ;;;
  ret (Node Code tok (Some (tokenValue lang)) [n]).

(** The [headers] map of [headerStmt]. *)
Definition headers (ty : TokenType) : option NodeType :=
  match ty with
  | HEADER1 => Some Header1
  | HEADER2 => Some Header2
  | HEADER3 => Some Header3
  | HEADER4 => Some Header4
  | HEADER5 => Some Header5
  | _ => None
  end.

Definition headerStmt (fuel : nat) : M ASTNode :=
  tok <- current ;;
  match headers (tokenType tok) with
  | Some ty =>
      eat (tokenType tok) ;;;
      eat SPACE ;;;
      n <- allCharsStmt fuel ;;
      ret (Node ty tok None [n])
  | None => invalidTokenError
  end.

Definition innerUnorederedLiStmt (fuel : nat) : M ASTNode :=
  tok <- current ;;
  eat UNORDEREDLI ;;;
  eat SPACE ;;;
  cur <- current ;;
  n <- match tokenType cur with
       | ITALIC => italicStmt fuel
       | BOLD => boldStmt fuel
       | STRING => allCharsStmt fuel
       | MONOSPACE => monoSpaceStmt fuel
       | _ => headerStmt fuel
       end ;;
  ret (Node UnorderedListItem tok None [n]).

(** The [while] loop of [unorderedListStmt]; [items] is [listRoot.children]. *)
Fixpoint unorderedListStmt_loop (fuel : nat) (items : list ASTNode)
  : M (list ASTNode) :=
  match fuel with
  | O => outOfFuel
  | S fuel' =>
      tok <- current ;;
      if TokenType_eqb (tokenType tok) UNORDEREDLI then
        n <- innerUnorederedLiStmt fuel' ;;
        unorderedListStmt_loop fuel' (items ++ [n])
      else ret items
  end.

Definition unorderedListStmt (fuel : nat) : M ASTNode :=
  items <- unorderedListStmt_loop fuel [] ;;
  ret (Node UnorderedListRoot (mkToken "lis" UNTYPED) None items).

Definition formatStmt (fuel : nat) : M ASTNode :=
  tok <- current ;;
  match tokenType tok with
  | STRING => textStmt fuel
  | SPACE => allCharsStmt fuel
  | MONOSPACE => monoSpaceStmt fuel
  | CODE => codeStmt fuel
  | ITALIC => italicStmt fuel
  | BOLD => boldStmt fuel
  | NEWLINE => textStmt fuel
  | UNORDEREDLI => unorderedListStmt fuel
  | ty =>
      if TokenType_eqb ty EOF then ret (Node Void (mkToken "" UNTYPED) None [])
      else if String.prefix "HEADER" (TokenType_name ty) then headerStmt fuel
      else invalidTokenError
  end.

(** The [while] loop of [rootStmt]; [nodes] is [rootNode.children]. *)
Fixpoint rootStmt_loop (fuel : nat) (nodes : list ASTNode) : M (list ASTNode) :=
  match fuel with
  | O => outOfFuel
  | S fuel' =>
      tok <- current ;;
      if negb (TokenType_eqb (tokenType tok) EOF) then
        n <- formatStmt fuel' ;;
        rootStmt_loop fuel' (nodes ++ [n])
      else ret nodes
  end.

Definition rootStmt (fuel : nat) : M ASTNode :=
  nodes <- rootStmt_loop fuel [] ;;
  ret (Node RootNode (mkToken "Root" UNTYPED) None nodes).

End Parser.

(** [new Parser(new Lexer(input)).rootStmt()], the parse of a whole
    document; the final parser state is dropped. *)
Inductive Parse : Type :=
| Document (root : ASTNode)
| Failure (e : Error)
| Unfinished.

Definition parse_document (fuel : nat) (inp : string) : Parse :=
  match Parser.new (Lexer.new inp) with
  | Throw e => Failure e
  | Ok p =>
      match Parser.rootStmt fuel p with
      | Parser.Return root _ => Document root
      | Parser.Raise e => Failure e
      | Parser.OutOfFuel => Unfinished
      end
  end.

(** * The vocabulary of the properties *)

Definition nl : string := String LF "".
Definition eofToken : Token := mkToken (String NUL "") EOF.

(** The characters that [getNextToken] has a [case] for. *)
Definition hasCase (c : ascii) : bool :=
  existsb (Ascii.eqb c) [NUL; " "; "_"; "*"; "-"; "#"; "`"; LF]%char.

Definition hashes (n : nat) : string := string_of_list_ascii (repeat "#"%char n).

(** C4 as it is stated, for a run that starts the input: a run of [n >= 5]
    ['#'] gives one [HEADER5] token and the lexer is then past the whole
    run, on the character that follows it (the sentinel at the end of the
    input). *)
Definition header_run_consumed_whole : Prop :=
  forall (n : nat) (rest : string),
    (5 <= n)%nat ->
    charAt rest 0 <> Char "#" ->
    exists l',
      Lexer.getNextToken (Lexer.new (hashes n ++ rest))
      = Ok (mkToken "#####" HEADER5, l') /\
      Lexer.currentChar l' = match charAt rest 0 with
                             | Undefined => Char NUL
                             | Char c => Char c
                             end.

(** [r] is cut off, or it is [r']. *)
Definition fuelLe {A} (r r' : Parser.Outcome A) : Prop :=
  r = Parser.OutOfFuel \/ r = r'.

Definition isText (tok : Token) : bool := includes [STRING; SPACE] (tokenType tok).

(** The texts of a list of tokens, concatenated in order. *)
Definition joinText (ts : list Token) : string :=
  fold_right (fun tok acc => tokenValue tok ++ acc) "" ts.

(** [textRun p ts p']: starting with the current token of [p], the token
    stream holds the [STRING] and [SPACE] tokens [ts], and the first token
    after them, which is neither, is the current token of [p'].  The run is
    maximal on the right. *)
Inductive textRun : Parser.t -> list Token -> Parser.t -> Prop :=
| textRun_end (p : Parser.t) :
    isText (Parser.currentToken p) = false -> textRun p [] p
| textRun_step (p p1 p' : Parser.t) (ts : list Token) :
    isText (Parser.currentToken p) = true ->
    Parser.new (Parser.lexer p) = Ok p1 ->
    textRun p1 ts p' ->
    textRun p (Parser.currentToken p :: ts) p'.

(** The run that starts at the current token, computed by at most [fuel]
    token requests. *)
Fixpoint textRunOf (fuel : nat) (p : Parser.t) : option (list Token * Parser.t) :=
  match fuel with
  | O => None
  | S fuel' =>
      if isText (Parser.currentToken p) then
        match Parser.new (Parser.lexer p) with
        | Ok p1 =>
            match textRunOf fuel' p1 with
            | Some (ts, p') => Some (Parser.currentToken p :: ts, p')
            | None => None
            end
        | Throw _ => None
        end
      else Some ([], p)
  end.

(** The parser in its first state on [inp] (the state of a lexer that has
    produced nothing when the first token request throws). *)
Definition parserOn (inp : string) : Parser.t :=
  match Parser.new (Lexer.new inp) with
  | Ok p => p
  | Throw _ => {| Parser.lexer := Lexer.new inp;
                  Parser.currentToken := Lexer.untyped |}
  end.

Definition textNode (v : string) : ASTNode :=
  Node StringNode (mkToken v STRING) None [].

Definition rootNode (nodes : list ASTNode) : ASTNode :=
  Node RootNode (mkToken "Root" UNTYPED) None nodes.

Definition listRoot (items : list ASTNode) : ASTNode :=
  Node UnorderedListRoot (mkToken "lis" UNTYPED) None items.

Definition listItem (n : ASTNode) : ASTNode :=
  Node UnorderedListItem (mkToken "-" UNORDEREDLI) None [n].

(** C2 as it is stated, at the top level of a document: when the token
    stream of an input is one run of [STRING] and [SPACE] tokens followed by
    [EOF], the document has a single Text child that holds the whole run. *)
Definition top_level_run_collapsed : Prop :=
  forall (inp : string) (ts : list Token) (n : nat) (l : Lexer.t),
    Lexer.tokens n (Lexer.new inp) = Ok ((ts ++ [eofToken])%list, l) ->
    ts <> [] ->
    forallb isText ts = true ->
    exists fuel,
      parse_document fuel inp = Document (rootNode [textNode (joinText ts)]).

(** The node kinds allowed directly under a node of kind [ty]: under Bold,
    Text and Italic; under Italic, Text and Bold; anything elsewhere. *)
Definition allowedUnder (ty child : NodeType) : bool :=
  match ty, child with
  | Bold, (StringNode | Italic) => true
  | Bold, _ => false
  | Italic, (StringNode | Bold) => true
  | Italic, _ => false
  | _, _ => true
  end.

(** Every Bold and every Italic node of the tree has allowed children only. *)
Fixpoint emphasisOk (n : ASTNode) : bool :=
  match n with
  | Node ty _ _ ch =>
      forallb (fun c => allowedUnder ty (nodeType c) && emphasisOk c) ch
  end.

Definition childrenOk (ty : NodeType) (ns : list ASTNode) : bool :=
  forallb (fun c => allowedUnder ty (nodeType c) && emphasisOk c) ns.

(** The token stream at [p] is an opening fence, a [STRING] token, a
    [NEWLINE] token, the run [body] of [STRING] and [SPACE] tokens, and a
    closing fence, after which the parser is [p']; [lang] is the [STRING]
    token. *)
Definition fencedBlock (p : Parser.t) (lang : Token) (body : list Token)
    (p' : Parser.t) : Prop :=
  exists p1 p2 p3 p4,
    tokenType (Parser.currentToken p) = CODE /\
    Parser.new (Parser.lexer p) = Ok p1 /\
    Parser.currentToken p1 = lang /\
    tokenType lang = STRING /\
    Parser.new (Parser.lexer p1) = Ok p2 /\
    tokenType (Parser.currentToken p2) = NEWLINE /\
    Parser.new (Parser.lexer p2) = Ok p3 /\
    textRun p3 body p4 /\
    tokenType (Parser.currentToken p4) = CODE /\
    Parser.new (Parser.lexer p4) = Ok p'.

(** * The lexer as a whole: vocabulary *)

(** The lexer's state is in step with its input: the position is not
    negative, and the current character is the end sentinel or the
    character of the input at the position. *)
Definition inStep (l : Lexer.t) : Prop :=
  0 <= Lexer.position l /\
  (Lexer.currentChar l = Char NUL \/
   Lexer.currentChar l = charAt (Lexer.input l) (Lexer.position l)).

(** [s] without its first [n] characters. *)
Fixpoint dropS (n : nat) (s : string) : string :=
  match n, s with
  | O, _ => s
  | S _, EmptyString => EmptyString
  | S n', String _ s' => dropS n' s'
  end.

Definition isSentinel (x : JsChar) : bool :=
  match x with
  | Char c => Ascii.eqb c NUL
  | Undefined => false
  end.

(** The part of the input that the lexer has not consumed yet. *)
Definition rest (l : Lexer.t) : string :=
  if isSentinel (Lexer.currentChar l) then EmptyString
  else dropS (Z.to_nat (Lexer.position l)) (Lexer.input l).

(** The lexer stands on a character of the input. *)
Definition onInput (l : Lexer.t) : Prop :=
  0 <= Lexer.position l < len (Lexer.input l) /\
  Lexer.currentChar l = charAt (Lexer.input l) (Lexer.position l).

(** The input holds no NUL character (which the lexer takes for its end
    sentinel). *)
Definition noNul (s : string) : Prop := forall i, charAt s i <> Char NUL.

Fixpoint noNulb (s : string) : bool :=
  match s with
  | EmptyString => true
  | String c s' => negb (Ascii.eqb c NUL) && noNulb s'
  end.

(** The text that goes with each kind of token. *)
Definition tokenOk (tok : Token) : bool :=
  match tokenType tok with
  | STRING => allClass (tokenValue tok)
  | SPACE => (tokenValue tok =? " ")%string
  | NEWLINE => (tokenValue tok =? nl)%string
  | BOLD => (tokenValue tok =? "**")%string
  | ITALIC => (tokenValue tok =? "_")%string
  | UNORDEREDLI => (tokenValue tok =? "-")%string
  | HEADER1 => (tokenValue tok =? "#")%string
  | HEADER2 => (tokenValue tok =? "##")%string
  | HEADER3 => (tokenValue tok =? "###")%string
  | HEADER4 => (tokenValue tok =? "####")%string
  | HEADER5 => (tokenValue tok =? "#####")%string
  | MONOSPACE => (tokenValue tok =? "`")%string
  | CODE => (tokenValue tok =? "```")%string
  | LINEBREAK => (tokenValue tok =? "---")%string
  | EOF => (tokenValue tok =? String NUL EmptyString)%string
  | UNTYPED => false
  end.

(** The header token of level [k], for [k] from 1 to 5. *)
Definition headerToken (k : nat) : Token :=
  mkToken (hashes k)
    match k with
    | 1%nat => HEADER1 | 2%nat => HEADER2 | 3%nat => HEADER3
    | 4%nat => HEADER4 | _ => HEADER5
    end.

(** [l'] is [l] moved forward: same input, same last token, a position that
    did not decrease and that, if it changed, is inside the input; and [l']
    is in step when [l] is. *)
Definition moved (l l' : Lexer.t) : Prop :=
  Lexer.input l' = Lexer.input l /\
  Lexer.currentToken l' = Lexer.currentToken l /\
  Lexer.position l <= Lexer.position l' /\
  (Lexer.position l' = Lexer.position l \/ Lexer.position l' <= len (Lexer.input l) - 1) /\
  (inStep l -> inStep l').

(** The lexer stands on a character of the input, or on the sentinel. *)
Definition settled (l : Lexer.t) : Prop :=
  onInput l \/ Lexer.currentChar l = Char NUL.

(** The characters of [inp] from [pos] on begin with the text [w]. *)
Definition spells (inp : string) (pos : Z) (w : string) : Prop :=
  forall (i : nat) (c : ascii),
    String.get i w = Some c -> charAt inp (pos + Z.of_nat i) = Char c.

(** * The parser as a whole: vocabulary *)

(** The kinds of token that some rule of the grammar consumes: all but
    [LINEBREAK], [UNTYPED] and [EOF]. *)
Definition eatable (ty : TokenType) : bool :=
  match ty with
  | LINEBREAK | UNTYPED | EOF => false
  | _ => true
  end.

(** [path p ts p']: the parser went from [p] to [p'] by consuming the
    tokens [ts], each of an [eatable] kind, one token request at a time. *)
Inductive path : Parser.t -> list Token -> Parser.t -> Prop :=
| path_nil (p : Parser.t) : path p [] p
| path_cons (p p1 p' : Parser.t) (ts : list Token) :
    eatable (tokenType (Parser.currentToken p)) = true ->
    Parser.new (Parser.lexer p) = Ok p1 ->
    path p1 ts p' ->
    path p (Parser.currentToken p :: ts) p'.

(** The parser's lookahead is the token the lexer returned last. *)
Definition inSync (p : Parser.t) : Prop :=
  Parser.currentToken p = Lexer.currentToken (Parser.lexer p).

(** Every returning run of [m] relates its first state to its last by [R]. *)
Definition follows {A} (R : Parser.t -> Parser.t -> Prop) (m : Parser.M A) : Prop :=
  forall p a p', m p = Parser.Return a p' -> R p p'.

(** What a rule of the parser keeps of the lexer: the input, a position
    that does not decrease, the lexer in step with its input, and the
    lookahead in step with the lexer. *)
Definition keepsLexer (p p' : Parser.t) : Prop :=
  Lexer.input (Parser.lexer p') = Lexer.input (Parser.lexer p) /\
  Lexer.position (Parser.lexer p) <= Lexer.position (Parser.lexer p') /\
  (inStep (Parser.lexer p) -> inStep (Parser.lexer p')) /\
  (inSync p -> inSync p').

(** ** Well-formed documents *)

(** The characters of a Text node: alphanumeric characters and spaces. *)
Definition textClass (c : ascii) : bool := alnumClass c || Ascii.eqb c " ".

Fixpoint allText (s : string) : bool :=
  match s with
  | EmptyString => true
  | String c s' => textClass c && allText s'
  end.

Definition Token_eqb (a b : Token) : bool :=
  (tokenValue a =? tokenValue b)%string && TokenType_eqb (tokenType a) (tokenType b).

(** The kinds of node that the parser puts under a node of kind [parent]. *)
Definition kindOk (parent child : NodeType) : bool :=
  match parent with
  | RootNode =>
      match child with
      | StringNode | NewLineNode | Monospace | Code | Italic | Bold
      | UnorderedListRoot
      | Header1 | Header2 | Header3 | Header4 | Header5 => true
      | _ => false
      end
  | UnorderedListRoot =>
      match child with UnorderedListItem => true | _ => false end
  | UnorderedListItem =>
      match child with
      | Italic | Bold | StringNode | Monospace
      | Header1 | Header2 | Header3 | Header4 | Header5 => true
      | _ => false
      end
  | Monospace | Code | Header1 | Header2 | Header3 | Header4 | Header5 =>
      match child with StringNode => true | _ => false end
  | Bold => match child with StringNode | Italic => true | _ => false end
  | Italic => match child with StringNode | Bold => true | _ => false end
  | _ => false
  end.

(** How many children a node of each kind has; the kinds [Void],
    [SpaceNode], [UnorderedList] and [OrderedList] are not produced. *)
Definition arityOk (ty : NodeType) (n : nat) : bool :=
  match ty with
  | Monospace | Code | UnorderedListItem
  | Header1 | Header2 | Header3 | Header4 | Header5 => Nat.eqb n 1
  | StringNode | NewLineNode => Nat.eqb n 0
  | RootNode | UnorderedListRoot | Bold | Italic => true
  | _ => false
  end.

(** The token that a node of each kind carries. *)
Definition nodeTokenOk (ty : NodeType) (tok : Token) : bool :=
  match ty with
  | RootNode => Token_eqb tok (mkToken "Root" UNTYPED)
  | UnorderedListRoot => Token_eqb tok (mkToken "lis" UNTYPED)
  | UnorderedListItem => Token_eqb tok (mkToken "-" UNORDEREDLI)
  | StringNode =>
      TokenType_eqb (tokenType tok) STRING && allText (tokenValue tok)
  | NewLineNode => Token_eqb tok (mkToken nl NEWLINE)
  | Bold => Token_eqb tok (mkToken "**" BOLD)
  | Italic => Token_eqb tok (mkToken "_" ITALIC)
  | Monospace => Token_eqb tok (mkToken "`" MONOSPACE)
  | Code => Token_eqb tok (mkToken "```" CODE)
  | Header1 => Token_eqb tok (mkToken "#" HEADER1)
  | Header2 => Token_eqb tok (mkToken "##" HEADER2)
  | Header3 => Token_eqb tok (mkToken "###" HEADER3)
  | Header4 => Token_eqb tok (mkToken "####" HEADER4)
  | Header5 => Token_eqb tok (mkToken "#####" HEADER5)
  | _ => false
  end.

(** [languageName] is present on Code nodes only, and is alphanumeric. *)
Definition langOk (ty : NodeType) (lang : option string) : bool :=
  match ty, lang with
  | Code, Some name => allClass name
  | Code, None => false
  | _, None => true
  | _, Some _ => false
  end.

Fixpoint nodeOk (n : ASTNode) : bool :=
  match n with
  | Node ty tok lang ch =>
      arityOk ty (length ch) && nodeTokenOk ty tok && langOk ty lang &&
      forallb (fun c => kindOk ty (nodeType c) && nodeOk c) ch
  end.

Definition kidsOk (ty : NodeType) (ns : list ASTNode) : bool :=
  forallb (fun c => kindOk ty (nodeType c) && nodeOk c) ns.

(** A rule keeps the lookahead a token with the text of its kind. *)
Definition keepsTokenOk (p p' : Parser.t) : Prop :=
  tokenOk (Parser.currentToken p) = true ->
  tokenOk (Parser.currentToken p') = true.

(** ** Header lines, monospace spans, a stuck lexer *)

(** The token stream at [p] is a header token of the level of [ty], a
    [SPACE] token, and the run [body] of [STRING] and [SPACE] tokens, after
    which the parser is [p']. *)
Definition headerLine (p : Parser.t) (ty : NodeType) (body : list Token)
    (p' : Parser.t) : Prop :=
  exists p1 p2,
    Parser.headers (tokenType (Parser.currentToken p)) = Some ty /\
    Parser.new (Parser.lexer p) = Ok p1 /\
    tokenType (Parser.currentToken p1) = SPACE /\
    Parser.new (Parser.lexer p1) = Ok p2 /\
    textRun p2 body p'.

(** The token stream at [p] is a backtick, the run [body] of [STRING] and
    [SPACE] tokens, and a backtick, after which the parser is [p']. *)
Definition monoSpan (p : Parser.t) (body : list Token) (p' : Parser.t) : Prop :=
  exists p1 p2,
    tokenType (Parser.currentToken p) = MONOSPACE /\
    Parser.new (Parser.lexer p) = Ok p1 /\
    textRun p1 body p2 /\
    tokenType (Parser.currentToken p2) = MONOSPACE /\
    Parser.new (Parser.lexer p2) = Ok p'.

(** The lexer stands on a character that is not alphanumeric and has no
    [case] in [getNextToken]. *)
Definition stuck (l : Lexer.t) : Prop :=
  exists c, Lexer.currentChar l = Char c /\
            hasCase c = false /\ alnumClass c = false.

(** ** Unterminated bold (C6): vocabulary *)



(** No request to the lexer [l], now or later, returns a [BOLD] token. *)
Definition noBoldAhead (l : Lexer.t) : Prop :=
  forall (n : nat) (ts : list Token) (l1 l2 : Lexer.t) (tok : Token),
    Lexer.tokens n l = Ok (ts, l1) ->
    Lexer.getNextToken l1 = Ok (tok, l2) ->
    tokenType tok <> BOLD.




(** ** utils.ts: [isAsciiAlpha] *)

(** The character class [[A-Za-z]]. *)
Definition alphaClass (c : ascii) : bool := inRange "A" "Z" c || inRange "a" "z" c.

Fixpoint allAlpha (s : string) : bool :=
  match s with
  | EmptyString => true
  | String c s' => alphaClass c && allAlpha s'
  end.

(** [/^[A-Za-z]+$/.test(str)] *)
Definition isAsciiAlpha (str : string) : bool :=
  match str with
  | EmptyString => false
  | String _ _ => allAlpha str
  end.

(** ** html.ts *)

Module Html.

(** A JS [number] that is finite, as a rational: it may be negative or
    fractional.  [fillSpace] only compares it with its integer counter and
    [toHtml] only adds 3 to it; [NaN], the infinities and the rounding of
    the addition are not modelled. *)
Definition number : Set := Q.

(** The [while (n <= size)] loop of [fillSpace], on its counter [n] and its
    string [s]; every iteration tests [n <= size]. *)
Fixpoint fillSpace_loop (fuel : nat) (size : number) (n : Z) (s : string)
    : Z * string :=
  match fuel with
  | O => (n, s)
  | S fuel' =>
      if Qle_bool (inject_Z n) size
      then fillSpace_loop fuel' size (n + 1) (s ++ " ")
      else (n, s)
  end.

(** More iterations than the loop makes from [n = 1]. *)
Definition fillFuel (size : number) : nat := S (Z.to_nat (Qfloor size)).

Definition fillSpace (size : number) : string :=
  snd (fillSpace_loop (fillFuel size) size 1 EmptyString).

(** What one iteration of the [for] loop of [toHtml] appends to [output];
    [rec] is [toHtml] itself. *)
Definition renderChild (rec : ASTNode -> number -> string) (inc : string)
    (nextInc : number) (child : ASTNode) : string :=
  match nodeType child with
  | Bold => inc ++ "<strong>" ++ rec child 0%Q ++ inc ++ "</strong>" ++ nl
  | NewLineNode => inc ++ "<br>" ++ nl
  | SpaceNode => inc ++ "<span> </span>"
  | StringNode =>
      inc ++ "<span>" ++ tokenValue (token child) ++ inc ++ "</span>" ++ nl
  | Italic => inc ++ "<i>" ++ rec child 0%Q ++ inc ++ "</i>" ++ nl
  | Header1 =>
      inc ++ "<h1>" ++ nl ++ rec child nextInc ++ inc ++ nl ++ "</h1>" ++ nl
  | Header2 =>
      inc ++ "<h2>" ++ nl ++ rec child nextInc ++ inc ++ nl ++ "</h2>" ++ nl
  | Header3 =>
      inc ++ "<h3>" ++ nl ++ rec child nextInc ++ inc ++ nl ++ "</h3>" ++ nl
  | Header4 =>
      inc ++ "<h4>" ++ nl ++ rec child nextInc ++ inc ++ nl ++ "</h4>" ++ nl
  | Header5 =>
      inc ++ "<h5>" ++ nl ++ rec child nextInc ++ inc ++ nl ++ "</h5>" ++ nl
  | Monospace => inc ++ "<code>" ++ rec child 0%Q ++ inc ++ "</code>" ++ nl
  | UnorderedListRoot =>
      inc ++ "<ul>" ++ nl ++ (inc ++ rec child nextInc) ++ inc ++ nl ++ "</ul>" ++ nl
  | UnorderedListItem =>
      "<li>" ++ nl ++ (inc ++ rec child 0%Q) ++ inc ++ nl ++ "</li>" ++ nl
  | _ => EmptyString
  end.

Fixpoint toHtml (root : ASTNode) (incSize : number) {struct root} : string :=
  match root with
  | Node ty _ _ ch =>
      let inc := fillSpace incSize in
      let nextInc := (incSize + 3)%Q in
      let output :=
        (fix each (cs : list ASTNode) (output : string) {struct cs} : string :=
           match cs with
           | [] => output
           | child :: cs' =>
               each cs' (output ++ renderChild toHtml inc nextInc child)
           end)
          ch
          match ty with
          | RootNode => "<html>" ++ nl
          | _ => EmptyString
          end in
      match ty with
      | RootNode => output ++ nl ++ "</html>"
      | _ => output
      end
  end.

End Html.


(** The kinds of child for which [toHtml] has no [case]. *)
Definition notRendered (ty : NodeType) : bool :=
  match ty with
  | Code | Void | RootNode | UnorderedList | OrderedList => true
  | _ => false
  end.

(** Every character of [s] is alphanumeric or has a [case] in
    [getNextToken]: the alphabet of the dialect. *)
Fixpoint supported (s : string) : bool :=
  match s with
  | EmptyString => true
  | String c s' => (alnumClass c || hasCase c) && supported s'
  end.

(** * Properties of the lexer *)

Module LexerFacts.
Import Lexer.

Lemma get_Some_lt (s : string) :
  forall n c, String.get n s = Some c -> (n < String.length s)%nat.
Proof.
  induction s as [|a s IH]; intros [|n] c H; simpl in *; try discriminate.
  - lia.
  - apply IH in H. lia.
Qed.

Lemma charAt_Char_range (s : string) (i : Z) (c : ascii) :
  charAt s i = Char c -> 0 <= i < len s.
Proof.
  unfold charAt, len. destruct (i <? 0) eqn:Hi; [discriminate|].
  apply Z.ltb_ge in Hi.
  destruct (String.get (Z.to_nat i) s) eqn:Hg; [|discriminate].
  intros _. apply get_Some_lt in Hg. lia.
Qed.

Lemma setToken_fields (tok : Token) (l : t) :
  setToken (tok, l)
  = (tok, {| position := position l; input := input l;
             currentChar := currentChar l; currentToken := tok |}).
Proof. reflexivity. Qed.

Lemma getHeaderToken_type (l : t) :
  tokenType (fst (getHeaderToken l)) <> EOF.
Proof.
  unfold getHeaderToken.
  repeat match goal with
         | |- context [if ?b then _ else _] => destruct b
         end; simpl; discriminate.
Qed.

Lemma getCodeToken_type (l : t) :
  tokenType (fst (getCodeToken l)) <> EOF.
Proof.
  unfold getCodeToken.
  destruct (_ && _); simpl; discriminate.
Qed.

Lemma getTextToken_type (l : t) :
  tokenType (fst (getTextToken l)) = STRING.
Proof.
  unfold getTextToken. destruct (getTextToken_loop _ _ _). reflexivity.
Qed.

(** [getNextToken] answers [EOF] only on the sentinel character, and then
    it moves nothing. *)
Lemma getNextToken_EOF_inv (l l' : t) (tok : Token) :
  getNextToken l = Ok (tok, l') ->
  tokenType tok = EOF ->
  currentChar l = Char NUL /\ tok = eofToken /\
  l' = {| position := position l; input := input l;
          currentChar := currentChar l; currentToken := eofToken |}.
Proof.
  unfold getNextToken, classify.
  destruct (currentChar l) as [|c] eqn:Hc.
  - intros H Hty. injection H as H. 
    pose proof (getTextToken_type l) as Ht.
    destruct (getTextToken l) as [tk l0]. simpl in *.
    injection H as <- _. congruence.
  - destruct (Ascii.eqb c NUL) eqn:E0.
    { apply Ascii.eqb_eq in E0. subst c. intros H _.
      rewrite setToken_fields in H. injection H as <- <-.
      rewrite Hc. auto. }
    intros H Hty. exfalso.
    repeat match type of H with
           | context [if ?b then _ else _] => destruct b
           end;
      try (unfold invalidCharacterError in H; discriminate);
      try (rewrite setToken_fields in H; injection H as <- _; discriminate).
    + pose proof (getHeaderToken_type l) as Ht.
      destruct (getHeaderToken l) as [tk l0]. simpl in *.
      injection H as <- _. congruence.
    + pose proof (getCodeToken_type l) as Ht.
      destruct (getCodeToken l) as [tk l0]. simpl in *.
      injection H as <- _. congruence.
    + pose proof (getTextToken_type l) as Ht.
      destruct (getTextToken l) as [tk l0]. simpl in *.
      injection H as <- _. congruence.
Qed.

Lemma getNextToken_at_sentinel (l : t) :
  currentChar l = Char NUL ->
  getNextToken l
  = Ok (eofToken, {| position := position l; input := input l;
                     currentChar := currentChar l; currentToken := eofToken |}).
Proof.
  intros Hc. unfold getNextToken, classify. rewrite Hc.
  rewrite Ascii.eqb_refl, setToken_fields, Hc. reflexivity.
Qed.

(** A lexer stopped on the sentinel, whose last token was [EOF], is a fixed
    point of [getNextToken]. *)
Lemma tokens_at_sentinel (l : t) :
  currentChar l = Char NUL ->
  currentToken l = eofToken ->
  forall n : nat, tokens n l = Ok (repeat eofToken n, l).
Proof.
  intros Hc Ht.
  assert (Hstep : getNextToken l = Ok (eofToken, l)).
  { rewrite getNextToken_at_sentinel by assumption.
    destruct l; simpl in *; subst; reflexivity. }
  induction n as [|n IH]; simpl; [reflexivity|].
  rewrite Hstep, IH. reflexivity.
Qed.

(** C9. Once [getNextToken] has returned an [EOF] token, every further call
    returns the [EOF] token again and leaves the lexer as it is: its scan
    position and its current character do not change (nor did the call that
    first returned [EOF] change them). *)
Theorem C9_eof_is_idempotent (l l' : t) (tok : Token) :
  getNextToken l = Ok (tok, l') ->
  tokenType tok = EOF ->
  (position l' = position l /\ currentChar l' = currentChar l) /\
  forall n : nat, tokens n l' = Ok (repeat eofToken n, l').
Proof.
  intros H Hty.
  destruct (getNextToken_EOF_inv l l' tok H Hty) as (Hc & -> & Hl').
  split; [subst l'; auto|].
  apply tokens_at_sentinel; subst l'; simpl; auto.
Qed.

Lemma C9_eof_is_idempotent_witness :
  let l1 := {| position := 0; input := "a"; currentChar := Char NUL;
               currentToken := mkToken "a" STRING |} in
  let l2 := {| position := 0; input := "a"; currentChar := Char NUL;
               currentToken := eofToken |} in
  getNextToken l1 = Ok (eofToken, l2) /\
  tokens 3 l2 = Ok ([eofToken; eofToken; eofToken], l2).
Proof.
  intros l1 l2. split; [reflexivity|].
  exact (proj2 (C9_eof_is_idempotent l1 l2 eofToken eq_refl eq_refl) 3%nat).
Defined.

(** C10. On the empty input the first token is a [STRING] token with the
    text ["undefined"]: the constructor reads [input[0]], which is
    [undefined], and [isAlphaNumeric] accepts its string coercion.  [EOF]
    comes from the second call on. *)
Theorem C10_empty_input_first_token :
  let l1 := {| position := 0; input := ""; currentChar := Char NUL;
               currentToken := mkToken "undefined" STRING |} in
  let l2 := {| position := 0; input := ""; currentChar := Char NUL;
               currentToken := eofToken |} in
  currentChar (Lexer.new "") = Undefined /\
  isAlphaNumeric (toStr Undefined) = true /\
  getNextToken (Lexer.new "") = Ok (mkToken "undefined" STRING, l1) /\
  getNextToken l1 = Ok (eofToken, l2) /\
  forall n : nat, tokens n l2 = Ok (repeat eofToken n, l2).
Proof.
  intros l1 l2. repeat split; try reflexivity.
  apply tokens_at_sentinel; reflexivity.
Qed.

(** *** The text loop *)

(** The loop of [getTextToken] leaves on its own condition: the fuel given
    by [textFuel] (or any larger one) is never what stops it. *)
Lemma getTextToken_loop_exit (fuel : nat) :
  forall (s : string) (l : t),
    (Z.to_nat (len (input l) - position l) + 2 <= fuel)%nat ->
    isAlphaNumeric (toStr (currentChar (snd (getTextToken_loop fuel s l)))) = false.
Proof.
  induction fuel as [|fuel IH]; intros s l Hf; [lia|].
  simpl. destruct (isAlphaNumeric (toStr (currentChar l))) eqn:Ha; [|exact Ha].
  unfold advance.
  destruct (position l + 1 >? len (input l) - 1) eqn:Hend.
  - destruct fuel as [|fuel]; [lia|]. reflexivity.
  - apply IH. simpl. rewrite Z.gtb_ltb in Hend. apply Z.ltb_ge in Hend. lia.
Qed.

Lemma getTextToken_exit (l : t) :
  isAlphaNumeric (toStr (currentChar (snd (getTextToken l)))) = false.
Proof.
  unfold getTextToken.
  pose proof (getTextToken_loop_exit (textFuel l) "" l) as H.
  destruct (getTextToken_loop (textFuel l) "" l) as [s l'].
  apply H. unfold textFuel. lia.
Qed.

(** What the [default] branch does on a character that is not alphanumeric:
    it returns a [STRING] token with the empty text, throws nothing and
    does not move. *)
Lemma getNextToken_default_not_alnum (l : t) (c : ascii) :
  currentChar l = Char c ->
  hasCase c = false ->
  alnumClass c = false ->
  getNextToken l
  = Ok (mkToken "" STRING,
        {| position := position l; input := input l;
           currentChar := currentChar l; currentToken := mkToken "" STRING |}).
Proof.
  intros Hc Hcase Hal.
  unfold hasCase in Hcase. simpl in Hcase.
  repeat (apply orb_false_elim in Hcase; destruct Hcase as [?E Hcase]).
  unfold getNextToken, classify. rewrite Hc.
  rewrite E, E0, E1, E2, E3, E4, E5, E6.
  unfold getTextToken, textFuel. simpl getTextToken_loop.
  rewrite Hc. simpl. rewrite Hal. simpl. rewrite Hc. reflexivity.
Qed.

(** C3 (what the code does). On ["!"] and on ["."] the next token request
    throws nothing: it returns a [STRING] token with the empty text and
    leaves the lexer where it was, so that every later request returns the
    same empty token.  Of the characters that begin no token, only a lone
    ['*'] reaches [invalidCharacterError]. *)
Theorem C3_unclassified_character_not_reported :
  let stuck (inp : string) :=
    {| position := 0; input := inp; currentChar := charAt inp 0;
       currentToken := mkToken "" STRING |} in
  getNextToken (Lexer.new "!") = Ok (mkToken "" STRING, stuck "!") /\
  getNextToken (stuck "!") = Ok (mkToken "" STRING, stuck "!") /\
  getNextToken (Lexer.new ".") = Ok (mkToken "" STRING, stuck ".") /\
  getNextToken (stuck ".") = Ok (mkToken "" STRING, stuck ".") /\
  getNextToken (Lexer.new "*") = Throw (InvalidCharacter (Char "*") 0).
Proof.
  intros stuck. repeat split;
    try (rewrite (getNextToken_default_not_alnum _ "!"%char); reflexivity);
    try (rewrite (getNextToken_default_not_alnum _ "."%char); reflexivity).
Qed.

(** *** Headers *)

(** C4 (counterexample). On ["######"] the [HEADER5] token takes five
    characters only: the lexer is then on the sixth ['#'], which the next
    request returns as a [HEADER1] token. *)
Lemma C4_six_hashes_two_tokens :
  ~ header_run_consumed_whole /\
  exists l' l'',
    getNextToken (Lexer.new "######") = Ok (mkToken "#####" HEADER5, l') /\
    position l' = 5 /\ currentChar l' = Char "#" /\
    getNextToken l' = Ok (mkToken "#" HEADER1, l'').
Proof.
  split.
  - intros H. destruct (H 6%nat "" ltac:(lia) ltac:(discriminate)) as (l' & Hl & Hc).
    vm_compute in Hl. injection Hl as <-. discriminate Hc.
  - do 2 eexists. repeat split.
Qed.

Lemma peekSequence_five (l : t) :
  (forall k, 0 <= k < 5 -> charAt (input l) (position l + k) = Char "#") ->
  peekSequence 5 l = "#####".
Proof.
  intros H.
  assert (Hne : (position l =? len (input l) - 1) = false).
  { apply Z.eqb_neq. pose proof (charAt_Char_range _ _ _ (H 4 ltac:(lia))). lia. }
  pose proof (H 0 ltac:(lia)) as H0. rewrite Z.add_0_r in H0.
  pose proof (H 1 ltac:(lia)) as H1.
  pose proof (H 2 ltac:(lia)) as H2.
  replace (position l + 2) with (position l + 1 + 1) in H2 by lia.
  pose proof (H 3 ltac:(lia)) as H3.
  replace (position l + 3) with (position l + 1 + 1 + 1) in H3 by lia.
  pose proof (H 4 ltac:(lia)) as H4.
  replace (position l + 4) with (position l + 1 + 1 + 1 + 1) in H4 by lia.
  unfold peekSequence. cbn [peekSequence_loop].
  rewrite Hne, H0, H1, H2, H3, H4. reflexivity.
Qed.

(** C4 (amended). Where the current character begins a run of [n >= 5]
    ['#'], the next token is [HEADER5] with the text ["#####"] and the lexer
    has consumed exactly five characters of the run: it stands on the
    character five places further ([advance(5)]), or on the sentinel when
    the input ends there.  When [n >= 6] that character is the sixth ['#']
    of the run, which is left for the next request. *)
Theorem C4_header5_takes_five (l : t) (n : Z) :
  5 <= n ->
  currentChar l = Char "#" ->
  (forall k, 0 <= k < n -> charAt (input l) (position l + k) = Char "#") ->
  exists l',
    getNextToken l = Ok (mkToken "#####" HEADER5, l') /\
    input l' = input l /\
    (position l + 5 <= len (input l) - 1 ->
       position l' = position l + 5 /\
       currentChar l' = charAt (input l) (position l + 5)) /\
    (position l + 5 > len (input l) - 1 ->
       position l' = position l /\ currentChar l' = Char NUL) /\
    (6 <= n -> position l' = position l + 5 /\ currentChar l' = Char "#").
Proof.
  intros Hn Hc Hrun.
  assert (H5 : peekSequence 5 l = "#####").
  { apply peekSequence_five. intros k Hk. apply Hrun. lia. }
  unfold getNextToken, classify, getHeaderToken. rewrite Hc, H5. simpl.
  eexists. split; [reflexivity|]. simpl.
  unfold advance.
  destruct (position l + 5 >? len (input l) - 1) eqn:Hend; simpl;
    rewrite Z.gtb_ltb in Hend;
    [apply Z.ltb_lt in Hend | apply Z.ltb_ge in Hend];
    (split; [reflexivity|]); (split; [|split]); intros Hcase; try lia.
  - auto.
  - pose proof (charAt_Char_range _ _ _ (Hrun 5 ltac:(lia))). lia.
  - auto.
  - split; [reflexivity|]. apply Hrun. lia.
Qed.

Lemma C4_header5_takes_five_witness :
  exists l',
    getNextToken (Lexer.new "####### x") = Ok (mkToken "#####" HEADER5, l') /\
    position l' = 5 /\ currentChar l' = Char "#".
Proof.
  destruct (C4_header5_takes_five (Lexer.new "####### x") 7) as (l' & H1 & _ & _ & _ & H6).
  - lia.
  - reflexivity.
  - intros k Hk.
    assert (k = 0 \/ k = 1 \/ k = 2 \/ k = 3 \/ k = 4 \/ k = 5 \/ k = 6) as Hcases by lia.
    repeat (destruct Hcases as [-> | Hcases]; [reflexivity|]). subst k. reflexivity.
  - exists l'. split; [exact H1|]. apply H6. lia.
Defined.

(** *** Strings and characters *)

Lemma sappend_assoc (a b c : string) : (a ++ b) ++ c = a ++ (b ++ c).
Proof. induction a as [|x a IH]; simpl; congruence. Qed.


(** An alphanumeric character has no [case] of its own in [getNextToken]. *)
Lemma alnumClass_default (c : ascii) : alnumClass c = true -> hasCase c = false.
Proof.
  intros Hc. unfold hasCase. simpl.
  repeat match goal with
         | |- context [Ascii.eqb c ?x] =>
             let E := fresh "E" in
             destruct (Ascii.eqb c x) eqn:E;
             [apply Ascii.eqb_eq in E; subst c; discriminate Hc|]
         end.
  reflexivity.
Qed.


End LexerFacts.

(** * Properties of the parser *)

Module ParserFacts.
Import Parser.

#[local] Notation "x <- m ;; k" := (bind m (fun x => k))
  (at level 61, m at next level, right associativity).
#[local] Notation "m ;;; k" := (bind m (fun _ => k))
  (at level 61, right associativity).

(** ** More fuel never changes an answer *)

Lemma fuelLe_refl {A} (r : Outcome A) : fuelLe r r.
Proof. right. reflexivity. Qed.

Lemma fuelLe_bind {A B} (m m' : M A) (k k' : A -> M B) (p : t) :
  fuelLe (m p) (m' p) ->
  (forall a q, fuelLe (k a q) (k' a q)) ->
  fuelLe (bind m k p) (bind m' k' p).
Proof.
  intros [H | H] Hk; unfold bind; rewrite H.
  - left. reflexivity.
  - destruct (m' p); [apply Hk | apply fuelLe_refl | apply fuelLe_refl].
Qed.


Ltac mono_step :=
  match goal with
  | |- fuelLe (bind _ _ _) (bind _ _ _) => apply fuelLe_bind; [|intros ? ?; cbv beta]
  | |- fuelLe ((if ?b then _ else _) _) _ => destruct b
  | |- fuelLe ((match ?x with _ => _ end) _) _ => destruct x
  | |- fuelLe OutOfFuel _ => left; reflexivity
  | |- fuelLe (outOfFuel _) _ => left; reflexivity
  | |- fuelLe ?r ?r => apply fuelLe_refl
  | H : forall f', _ |- fuelLe _ _ => apply H; lia
  | H : context [fuelLe _ _] |- fuelLe _ _ => apply H; lia
  end.

Ltac mono := repeat mono_step.

Lemma allCharsStmt_loop_mono (f : nat) :
  forall f' v p, (f <= f')%nat ->
    fuelLe (allCharsStmt_loop f v p) (allCharsStmt_loop f' v p).
Proof.
  induction f as [|f IH]; intros f' v p Hf; [left; reflexivity|].
  destruct f' as [|f']; [lia|]. cbn [allCharsStmt_loop]. mono.
Qed.

Lemma allCharsStmt_mono (f f' : nat) (p : t) :
  (f <= f')%nat -> fuelLe (allCharsStmt f p) (allCharsStmt f' p).
Proof.
  intros Hf. unfold allCharsStmt. apply fuelLe_bind; [|intros; apply fuelLe_refl].
  apply allCharsStmt_loop_mono, Hf.
Qed.

Lemma textStmt_mono (f : nat) :
  forall f' p, (f <= f')%nat -> fuelLe (textStmt f p) (textStmt f' p).
Proof.
  induction f as [|f IH]; intros f' p Hf; [left; reflexivity|].
  destruct f' as [|f']; [lia|]. cbn [textStmt]. mono.
Qed.

Lemma emphasis_mono (f : nat) :
  (forall f' p, (f <= f')%nat -> fuelLe (boldStmt f p) (boldStmt f' p)) /\
  (forall f' p, (f <= f')%nat -> fuelLe (italicStmt f p) (italicStmt f' p)) /\
  (forall f' ns p, (f <= f')%nat ->
     fuelLe (innerItalicStmt f ns p) (innerItalicStmt f' ns p)) /\
  (forall f' ns p, (f <= f')%nat ->
     fuelLe (innerBoldStmt f ns p) (innerBoldStmt f' ns p)).
Proof.
  induction f as [|f (IHb & IHi & IHii & IHib)].
  - repeat split; intros; left; reflexivity.
  - pose proof allCharsStmt_mono as Hall.
    split; [|split; [|split]].
    + intros [|f'] p Hf; [lia|]. cbn [boldStmt]. mono.
    + intros [|f'] p Hf; [lia|]. cbn [italicStmt]. mono.
    + intros [|f'] ns p Hf; [lia|]. cbn [innerItalicStmt]. mono.
    + intros [|f'] ns p Hf; [lia|]. cbn [innerBoldStmt]. mono.
Qed.

Lemma boldStmt_mono (f f' : nat) (p : t) :
  (f <= f')%nat -> fuelLe (boldStmt f p) (boldStmt f' p).
Proof. intros; apply emphasis_mono; assumption. Qed.

Lemma italicStmt_mono (f f' : nat) (p : t) :
  (f <= f')%nat -> fuelLe (italicStmt f p) (italicStmt f' p).
Proof. intros; apply emphasis_mono; assumption. Qed.

Lemma monoSpaceStmt_mono (f f' : nat) (p : t) :
  (f <= f')%nat -> fuelLe (monoSpaceStmt f p) (monoSpaceStmt f' p).
Proof.
  intros Hf. pose proof allCharsStmt_mono as Hall.
  unfold monoSpaceStmt. mono.
Qed.

Lemma codeStmt_mono (f f' : nat) (p : t) :
  (f <= f')%nat -> fuelLe (codeStmt f p) (codeStmt f' p).
Proof.
  intros Hf. pose proof allCharsStmt_mono as Hall.
  unfold codeStmt. mono.
Qed.

Lemma headerStmt_mono (f f' : nat) (p : t) :
  (f <= f')%nat -> fuelLe (headerStmt f p) (headerStmt f' p).
Proof.
  intros Hf. pose proof allCharsStmt_mono as Hall.
  unfold headerStmt. mono.
Qed.

Lemma innerUnorederedLiStmt_mono (f f' : nat) (p : t) :
  (f <= f')%nat -> fuelLe (innerUnorederedLiStmt f p) (innerUnorederedLiStmt f' p).
Proof.
  intros Hf. unfold innerUnorederedLiStmt.
  do 3 (apply fuelLe_bind; [apply fuelLe_refl | intros ? ?; cbv beta]).
  apply fuelLe_bind; [apply fuelLe_refl | intros cur st; cbv beta].
  apply fuelLe_bind; [|intros; apply fuelLe_refl].
  destruct (tokenType cur);
    first [ apply italicStmt_mono | apply boldStmt_mono | apply allCharsStmt_mono
          | apply monoSpaceStmt_mono | apply headerStmt_mono ]; exact Hf.
Qed.

Lemma unorderedListStmt_loop_mono (f : nat) :
  forall f' items p, (f <= f')%nat ->
    fuelLe (unorderedListStmt_loop f items p) (unorderedListStmt_loop f' items p).
Proof.
  induction f as [|f IH]; intros f' items p Hf; [left; reflexivity|].
  destruct f' as [|f']; [lia|]. cbn [unorderedListStmt_loop].
  apply fuelLe_bind; [apply fuelLe_refl | intros tok q; cbv beta].
  destruct (TokenType_eqb (tokenType tok) UNORDEREDLI); [|apply fuelLe_refl].
  apply fuelLe_bind; [apply innerUnorederedLiStmt_mono; lia|].
  intros; apply IH; lia.
Qed.

Lemma unorderedListStmt_mono (f f' : nat) (p : t) :
  (f <= f')%nat -> fuelLe (unorderedListStmt f p) (unorderedListStmt f' p).
Proof.
  intros Hf. unfold unorderedListStmt.
  apply fuelLe_bind; [apply unorderedListStmt_loop_mono, Hf | intros; apply fuelLe_refl].
Qed.

Lemma formatStmt_mono (f f' : nat) (p : t) :
  (f <= f')%nat -> fuelLe (formatStmt f p) (formatStmt f' p).
Proof.
  intros Hf. unfold formatStmt.
  apply fuelLe_bind; [apply fuelLe_refl | intros tok q; cbv beta].
  destruct (tokenType tok); cbv beta iota;
    first [ apply textStmt_mono; exact Hf
          | apply allCharsStmt_mono; exact Hf
          | apply monoSpaceStmt_mono; exact Hf
          | apply codeStmt_mono; exact Hf
          | apply italicStmt_mono; exact Hf
          | apply boldStmt_mono; exact Hf
          | apply unorderedListStmt_mono; exact Hf
          | apply headerStmt_mono; exact Hf
          | apply fuelLe_refl ].
Qed.

Lemma rootStmt_loop_mono (f : nat) :
  forall f' nodes p, (f <= f')%nat ->
    fuelLe (rootStmt_loop f nodes p) (rootStmt_loop f' nodes p).
Proof.
  induction f as [|f IH]; intros f' nodes p Hf; [left; reflexivity|].
  destruct f' as [|f']; [lia|]. cbn [rootStmt_loop].
  apply fuelLe_bind; [apply fuelLe_refl | intros tok q; cbv beta].
  destruct (negb (TokenType_eqb (tokenType tok) EOF)); [|apply fuelLe_refl].
  apply fuelLe_bind; [apply formatStmt_mono; lia|].
  intros; apply IH; lia.
Qed.

Lemma rootStmt_mono (f f' : nat) (p : t) :
  (f <= f')%nat -> fuelLe (rootStmt f p) (rootStmt f' p).
Proof.
  intros Hf. unfold rootStmt.
  apply fuelLe_bind; [apply rootStmt_loop_mono, Hf | intros; apply fuelLe_refl].
Qed.

(** The parse of a document does not depend on the fuel, once there is
    enough of it for the parse to finish. *)
Lemma parse_document_fuel (f f' : nat) (inp : string) :
  (f <= f')%nat ->
  parse_document f inp <> Unfinished ->
  parse_document f' inp = parse_document f inp.
Proof.
  intros Hf. unfold parse_document.
  destruct (Parser.new (Lexer.new inp)) as [p|e]; [|reflexivity].
  destruct (rootStmt_mono f f' p Hf) as [H | H]; rewrite H.
  - intros Hne. exfalso. apply Hne. reflexivity.
  - reflexivity.
Qed.

Lemma parse_document_at_least (f : nat) (inp : string) (r : Parse) :
  parse_document f inp = r -> r <> Unfinished ->
  forall k : nat, parse_document (f + k) inp = r.
Proof.
  intros H Hr k. rewrite <- H. apply parse_document_fuel; [lia|congruence].
Qed.

Lemma parse_document_unique (f f' : nat) (inp : string) (r r' : Parse) :
  parse_document f inp = r -> r <> Unfinished ->
  parse_document f' inp = r' -> r' <> Unfinished ->
  r = r'.
Proof.
  intros H Hr H' Hr'.
  destruct (Nat.le_ge_cases f f') as [Hle | Hle].
  - rewrite <- H, <- H'. symmetry. apply parse_document_fuel; congruence.
  - rewrite <- H, <- H'. apply parse_document_fuel; congruence.
Qed.

(** ** Inversion of the monad *)

Lemma bind_Return {A B} (m : M A) (k : A -> M B) (p p' : t) (b : B) :
  bind m k p = Return b p' ->
  exists a q, m p = Return a q /\ k a q = Return b p'.
Proof.
  unfold bind. destruct (m p) as [a q| |]; try discriminate.
  intros H. exists a, q. auto.
Qed.

Lemma TokenType_eqb_eq (a b : TokenType) : TokenType_eqb a b = true <-> a = b.
Proof. split; [destruct a, b; simpl; congruence | intros ->; destruct b; reflexivity]. Qed.

Lemma TokenType_eqb_refl (a : TokenType) : TokenType_eqb a a = true.
Proof. destruct a; reflexivity. Qed.

Lemma TokenType_eqb_neq (a b : TokenType) : TokenType_eqb a b = false <-> a <> b.
Proof.
  split.
  - intros H ->. rewrite TokenType_eqb_refl in H. discriminate.
  - intros H. destruct (TokenType_eqb a b) eqn:E; [|reflexivity].
    apply TokenType_eqb_eq in E. contradiction.
Qed.

(** [eat] on the expected kind asks the lexer for the next token. *)
Lemma eat_match (ty : TokenType) (p : t) :
  tokenType (currentToken p) = ty ->
  eat ty p = match Parser.new (lexer p) with
             | Ok p' => Return tt p'
             | Throw e => Raise e
             end.
Proof.
  intros <-. unfold eat, Parser.new. rewrite TokenType_eqb_refl.
  destruct (Lexer.getNextToken (lexer p)) as [[tok l']|e]; reflexivity.
Qed.

(** [eat] on any other kind throws, naming the current token. *)
Lemma eat_mismatch (ty : TokenType) (p : t) :
  tokenType (currentToken p) <> ty ->
  eat ty p = Raise (InvalidToken (currentToken p)).
Proof.
  intros H. unfold eat. apply TokenType_eqb_neq in H. rewrite H. reflexivity.
Qed.

Lemma eat_Return (ty : TokenType) (p p' : t) (u : unit) :
  eat ty p = Return u p' ->
  tokenType (currentToken p) = ty /\ Parser.new (lexer p) = Ok p'.
Proof.
  unfold eat, Parser.new, invalidTokenError.
  destruct (TokenType_eqb (tokenType (currentToken p)) ty) eqn:E; [|discriminate].
  apply TokenType_eqb_eq in E.
  destruct (Lexer.getNextToken (lexer p)) as [[tok l']|e]; [|discriminate].
  intros H. inversion H; subst. auto.
Qed.

(** ** Strings *)

Lemma append_empty_r (s : string) : s ++ "" = s.
Proof. induction s as [|c s IH]; simpl; congruence. Qed.

Lemma append_assoc (a b c : string) : (a ++ b) ++ c = a ++ (b ++ c).
Proof. induction a as [|x a IH]; simpl; congruence. Qed.

(** ** Runs of text tokens *)

Lemma textRun_stops (p p' : t) (ts : list Token) :
  textRun p ts p' -> isText (currentToken p') = false.
Proof. induction 1; assumption. Qed.

Lemma textRun_all_text (p p' : t) (ts : list Token) :
  textRun p ts p' -> forallb isText ts = true.
Proof. induction 1; simpl; [reflexivity|]. rewrite H, IHtextRun. reflexivity. Qed.

Lemma allCharsStmt_loop_run (p p' : t) (ts : list Token) :
  textRun p ts p' ->
  forall (fuel : nat) (v : string),
    (length ts < fuel)%nat ->
    allCharsStmt_loop fuel v p = Return (v ++ joinText ts) p'.
Proof.
  induction 1 as [p Hp | p p1 p' ts Hp Hn Hrun IH]; intros [|fuel] v Hf;
    simpl in Hf; try lia; cbn [allCharsStmt_loop]; unfold bind at 1, current;
    fold (isText (currentToken p)); rewrite Hp.
  - simpl. rewrite append_empty_r. reflexivity.
  - unfold bind. rewrite eat_match by reflexivity. rewrite Hn.
    rewrite IH by lia. simpl. rewrite append_assoc. reflexivity.
Qed.

Lemma allCharsStmt_loop_inv (fuel : nat) :
  forall (v v' : string) (p p' : t),
    allCharsStmt_loop fuel v p = Return v' p' ->
    exists ts, textRun p ts p' /\ v' = v ++ joinText ts /\ (length ts < fuel)%nat.
Proof.
  induction fuel as [|fuel IH]; intros v v' p p' H; [discriminate|].
  cbn [allCharsStmt_loop] in H. unfold bind at 1, current in H.
  fold (isText (currentToken p)) in H.
  destruct (isText (currentToken p)) eqn:Hp.
  - apply bind_Return in H. destruct H as ([] & q & He & H).
    apply eat_Return in He. destruct He as [_ Hn].
    apply IH in H. destruct H as (ts & Hrun & -> & Hlen).
    exists (currentToken p :: ts). split; [|split].
    + eapply textRun_step; eassumption.
    + simpl. rewrite append_assoc. reflexivity.
    + simpl. lia.
  - injection H as <- <-. exists []. split; [|split].
    + apply textRun_end, Hp.
    + simpl. rewrite append_empty_r. reflexivity.
    + simpl. lia.
Qed.

Lemma allCharsStmt_run (p p' : t) (ts : list Token) (fuel : nat) :
  textRun p ts p' -> (length ts < fuel)%nat ->
  allCharsStmt fuel p = Return (textNode (joinText ts)) p'.
Proof.
  intros Hrun Hf. unfold allCharsStmt, bind.
  rewrite (allCharsStmt_loop_run p p' ts Hrun) by assumption. reflexivity.
Qed.

Lemma allCharsStmt_inv (fuel : nat) (p p' : t) (n : ASTNode) :
  allCharsStmt fuel p = Return n p' ->
  exists ts, textRun p ts p' /\ n = textNode (joinText ts).
Proof.
  unfold allCharsStmt. intros H. apply bind_Return in H.
  destruct H as (v & q & Hl & H). injection H as <- <-.
  apply allCharsStmt_loop_inv in Hl. destruct Hl as (ts & Hrun & -> & _).
  exists ts. auto.
Qed.

Lemma textRunOf_sound (fuel : nat) :
  forall p ts p', textRunOf fuel p = Some (ts, p') -> textRun p ts p'.
Proof.
  induction fuel as [|fuel IH]; intros p ts p' H; [discriminate|].
  simpl in H. destruct (isText (currentToken p)) eqn:Hp.
  - destruct (Parser.new (lexer p)) as [p1|e] eqn:Hn; [|discriminate].
    destruct (textRunOf fuel p1) as [[ts1 q]|] eqn:Hr; [|discriminate].
    injection H as <- <-. eapply textRun_step; eauto.
  - injection H as <- <-. apply textRun_end, Hp.
Qed.

(** ** Text runs (C2) *)

(** C2 (counterexample). The tokens of ["Hello World"] are one run,
    [STRING], [SPACE], [STRING], but the document has two Text children,
    ["Hello"] and [" World"]: at the top level a run that starts with a
    [STRING] token goes to [textStmt], which keeps that token alone. *)
Lemma C2_top_level_run_is_split :
  ~ top_level_run_collapsed /\
  (exists l, Lexer.tokens 4 (Lexer.new "Hello World")
             = Ok ([mkToken "Hello" STRING; mkToken " " SPACE;
                    mkToken "World" STRING; eofToken], l)) /\
  forall k : nat,
    parse_document (5 + k) "Hello World"
    = Document (rootNode [textNode "Hello"; textNode " World"]).
Proof.
  assert (Hparse : forall k : nat,
    parse_document (5 + k) "Hello World"
    = Document (rootNode [textNode "Hello"; textNode " World"])).
  { apply parse_document_at_least; [vm_compute; reflexivity | discriminate]. }
  split; [|split].
  - intros H.
    destruct (H "Hello World"
                [mkToken "Hello" STRING; mkToken " " SPACE; mkToken "World" STRING]
                4%nat _ eq_refl ltac:(discriminate) eq_refl) as (fuel & Hf).
    pose proof (parse_document_unique _ _ _ _ _ Hf ltac:(discriminate)
                  (Hparse 0%nat) ltac:(discriminate)) as Heq.
    discriminate Heq.
  - eexists. vm_compute. reflexivity.
  - exact Hparse.
Qed.

(** C2 (amended). Wherever the parser calls [allCharsStmt] (inside bold and
    italic spans and list items on a [STRING] token, in monospace spans,
    code bodies and header texts, and at the top level on a [SPACE] token),
    the maximal run of [STRING] and [SPACE] tokens that starts at the
    current token becomes one Text node, whose text is the concatenation of
    the texts of the run, and the parser stops on the token after the run.
    At the top level a run that starts with a [STRING] token is not
    collapsed: when a [SPACE] follows, [formatStmt] returns a Text node that
    holds the first [STRING] token alone and stops on that [SPACE]. *)
Theorem C2_allCharsStmt_collapses_run (p p' : t) (ts : list Token) (fuel : nat) :
  textRun p ts p' ->
  (length ts < fuel)%nat ->
  allCharsStmt fuel p = Return (textNode (joinText ts)) p' /\
  (tokenType (currentToken p) = SPACE ->
     formatStmt fuel p = Return (textNode (joinText ts)) p') /\
  (tokenType (currentToken p) = STRING ->
     forall p1, Parser.new (lexer p) = Ok p1 ->
       tokenType (currentToken p1) = SPACE ->
       forall fuel' : nat, (2 <= fuel')%nat ->
         formatStmt fuel' p = Return (Node StringNode (currentToken p) None []) p1).
Proof.
  intros Hrun Hf.
  pose proof (allCharsStmt_run p p' ts fuel Hrun Hf) as Hall.
  split; [exact Hall|]. split.
  - intros Hsp. unfold formatStmt, bind at 1, current. rewrite Hsp. exact Hall.
  - intros Hstr p1 Hn Hsp [|[|f]] Hf'; try lia.
    unfold formatStmt, bind at 1, current. rewrite Hstr.
    cbn [textStmt]. unfold bind at 1, current. rewrite Hstr.
    unfold bind at 1. rewrite eat_match by assumption. rewrite Hn.
    unfold bind, current. rewrite Hsp. reflexivity.
Qed.

Lemma C2_allCharsStmt_collapses_run_witness :
  let p' := {| lexer := {| Lexer.position := 3; Lexer.input := " a b";
                           Lexer.currentChar := Char NUL;
                           Lexer.currentToken := eofToken |};
               currentToken := eofToken |} in
  allCharsStmt 5 (parserOn " a b") = Return (textNode " a b") p' /\
  formatStmt 5 (parserOn " a b") = Return (textNode " a b") p'.
Proof.
  intros p'.
  pose (ts := [mkToken " " SPACE; mkToken "a" STRING;
               mkToken " " SPACE; mkToken "b" STRING]).
  destruct (C2_allCharsStmt_collapses_run (parserOn " a b") p' ts 5
              (textRunOf_sound 5 (parserOn " a b") ts p' eq_refl)
              (Nat.lt_succ_diag_r 4))
    as (H1 & H2 & _).
  split; [exact H1 | exact (H2 eq_refl)].
Defined.

(** ** Lists (C1) *)

(** C1 (what the code does). On the two-line list ["- a\n- b"] the document
    has three children, not one: a list root with the single item ["a"], a
    NewLine node, and a second list root with the single item ["b"].  The
    loop of [unorderedListStmt] ends after the first item, whose Text stops
    at the [NEWLINE] token. *)
Theorem C1_two_line_list_is_split :
  forall k : nat,
    parse_document (6 + k) ("- a" ++ nl ++ "- b")
    = Document
        (rootNode
           [listRoot [listItem (textNode "a")];
            Node NewLineNode (mkToken nl NEWLINE) None [];
            listRoot [listItem (textNode "b")]]).
Proof.
  apply parse_document_at_least; [vm_compute; reflexivity | discriminate].
Qed.

(** ** Emphasis (C7) *)

Lemma childrenOk_snoc (ty : NodeType) (ns : list ASTNode) (n : ASTNode) :
  childrenOk ty ns = true ->
  allowedUnder ty (nodeType n) = true -> emphasisOk n = true ->
  childrenOk ty (ns ++ [n]) = true.
Proof.
  intros Hns Ha Hn. unfold childrenOk. rewrite forallb_app. fold (childrenOk ty ns).
  rewrite Hns. simpl. rewrite Ha, Hn. reflexivity.
Qed.

Ltac inv_step :=
  match goal with
  | H : bind _ _ _ = Return _ _ |- _ =>
      apply bind_Return in H; destruct H as (? & ? & ? & H)
  | H : current _ = Return _ _ |- _ =>
      unfold current in H; injection H as <- <-
  | H : ret _ _ = Return _ _ |- _ =>
      unfold ret in H; injection H as <- <-
  | H : outOfFuel _ = Return _ _ |- _ => discriminate H
  | H : invalidTokenError _ = Return _ _ |- _ => discriminate H
  end.

Ltac inv_M := repeat inv_step.

Lemma allCharsStmt_node (fuel : nat) (p p' : t) (n : ASTNode) :
  allCharsStmt fuel p = Return n p' ->
  nodeType n = StringNode /\ children n = [] /\ emphasisOk n = true.
Proof.
  intros H. apply allCharsStmt_inv in H. destruct H as (ts & _ & ->). auto.
Qed.

Lemma emphasis_shape (f : nat) :
  (forall p n p', boldStmt f p = Return n p' ->
     nodeType n = Bold /\ emphasisOk n = true) /\
  (forall p n p', italicStmt f p = Return n p' ->
     nodeType n = Italic /\ emphasisOk n = true) /\
  (forall ns p ns' p', innerItalicStmt f ns p = Return ns' p' ->
     childrenOk Italic ns = true -> childrenOk Italic ns' = true) /\
  (forall ns p ns' p', innerBoldStmt f ns p = Return ns' p' ->
     childrenOk Bold ns = true -> childrenOk Bold ns' = true).
Proof.
  induction f as [|f (IHb & IHi & IHii & IHib)].
  - repeat split; intros; discriminate.
  - split; [|split; [|split]].
    + intros p n p' H. cbn [boldStmt] in H. inv_M.
      match goal with
      | Hin : innerBoldStmt _ _ _ = Return _ _ |- _ =>
          apply IHib in Hin; [|reflexivity]; split; [reflexivity|exact Hin]
      end.
    + intros p n p' H. cbn [italicStmt] in H. inv_M.
      match goal with
      | Hin : innerItalicStmt _ _ _ = Return _ _ |- _ =>
          apply IHii in Hin; [|reflexivity]; split; [reflexivity|exact Hin]
      end.
    + intros ns p ns' p' H Hns. cbn [innerItalicStmt] in H. inv_M.
      destruct (includes [BOLD; STRING] (tokenType (currentToken p))) eqn:E;
        [|inv_M; exact Hns].
      destruct (tokenType (currentToken p)); try discriminate E; inv_M;
        eapply IHii; try eassumption; apply childrenOk_snoc; trivial.
      * match goal with
        | Hn : allCharsStmt _ _ = Return _ _ |- _ =>
            apply allCharsStmt_node in Hn; destruct Hn as (-> & _); reflexivity
        end.
      * match goal with
        | Hn : allCharsStmt _ _ = Return _ _ |- _ =>
            apply allCharsStmt_node in Hn; apply Hn
        end.
      * match goal with
        | Hn : boldStmt _ _ = Return _ _ |- _ =>
            apply IHb in Hn; destruct Hn as (-> & _); reflexivity
        end.
      * match goal with
        | Hn : boldStmt _ _ = Return _ _ |- _ => apply IHb in Hn; apply Hn
        end.
    + intros ns p ns' p' H Hns. cbn [innerBoldStmt] in H. inv_M.
      destruct (includes [ITALIC; STRING] (tokenType (currentToken p))) eqn:E;
        [|inv_M; exact Hns].
      destruct (tokenType (currentToken p)); try discriminate E; inv_M;
        eapply IHib; try eassumption; apply childrenOk_snoc; trivial.
      * match goal with
        | Hn : allCharsStmt _ _ = Return _ _ |- _ =>
            apply allCharsStmt_node in Hn; destruct Hn as (-> & _); reflexivity
        end.
      * match goal with
        | Hn : allCharsStmt _ _ = Return _ _ |- _ =>
            apply allCharsStmt_node in Hn; apply Hn
        end.
      * match goal with
        | Hn : italicStmt _ _ = Return _ _ |- _ =>
            apply IHi in Hn; destruct Hn as (-> & _); reflexivity
        end.
      * match goal with
        | Hn : italicStmt _ _ = Return _ _ |- _ => apply IHi in Hn; apply Hn
        end.
Qed.

Lemma boldStmt_shape (f : nat) (p p' : t) (n : ASTNode) :
  boldStmt f p = Return n p' -> nodeType n = Bold /\ emphasisOk n = true.
Proof. apply emphasis_shape. Qed.

Lemma italicStmt_shape (f : nat) (p p' : t) (n : ASTNode) :
  italicStmt f p = Return n p' -> nodeType n = Italic /\ emphasisOk n = true.
Proof. apply emphasis_shape. Qed.

Lemma textStmt_ok (f : nat) (p p' : t) (n : ASTNode) :
  textStmt f p = Return n p' -> emphasisOk n = true.
Proof.
  destruct f as [|f]; [discriminate|]. cbn [textStmt]. intros H. inv_M.
  destruct (tokenType (currentToken p)); inv_M; reflexivity.
Qed.

Ltac all_chars_ok :=
  match goal with
  | Hn : allCharsStmt _ _ = Return _ _ |- _ =>
      apply allCharsStmt_node in Hn; destruct Hn as (_ & _ & Hn);
      simpl; rewrite Hn; reflexivity
  end.

Lemma monoSpaceStmt_ok (f : nat) (p p' : t) (n : ASTNode) :
  monoSpaceStmt f p = Return n p' -> emphasisOk n = true.
Proof. unfold monoSpaceStmt. intros H. inv_M. all_chars_ok. Qed.

Lemma codeStmt_ok (f : nat) (p p' : t) (n : ASTNode) :
  codeStmt f p = Return n p' -> emphasisOk n = true.
Proof. unfold codeStmt. intros H. inv_M. all_chars_ok. Qed.

Lemma headerStmt_ok (f : nat) (p p' : t) (n : ASTNode) :
  headerStmt f p = Return n p' -> emphasisOk n = true.
Proof.
  unfold headerStmt. intros H. inv_M.
  destruct (tokenType (currentToken p)); simpl in H; inv_M; all_chars_ok.
Qed.

Lemma innerUnorederedLiStmt_ok (f : nat) (p p' : t) (n : ASTNode) :
  innerUnorederedLiStmt f p = Return n p' -> emphasisOk n = true.
Proof.
  unfold innerUnorederedLiStmt. intros H. inv_M. simpl.
  match goal with
  | Hc : (match tokenType ?tok with _ => _ end) _ = Return ?c _ |- _ =>
      assert (Hok : emphasisOk c = true);
      [ destruct (tokenType tok);
        first [ apply allCharsStmt_node in Hc; apply Hc
              | apply boldStmt_shape in Hc; apply Hc
              | apply italicStmt_shape in Hc; apply Hc
              | apply monoSpaceStmt_ok in Hc; exact Hc
              | apply headerStmt_ok in Hc; exact Hc ]
      | rewrite Hok; reflexivity ]
  end.
Qed.

Lemma unorderedListStmt_loop_ok (f : nat) :
  forall items p items' p',
    unorderedListStmt_loop f items p = Return items' p' ->
    childrenOk UnorderedListRoot items = true ->
    childrenOk UnorderedListRoot items' = true.
Proof.
  induction f as [|f IH]; intros items p items' p' H Hok; [discriminate|].
  cbn [unorderedListStmt_loop] in H. inv_M.
  destruct (TokenType_eqb (tokenType (currentToken p)) UNORDEREDLI); inv_M;
    [|exact Hok].
  eapply IH; [eassumption|]. apply childrenOk_snoc; trivial.
  eapply innerUnorederedLiStmt_ok; eassumption.
Qed.

Lemma unorderedListStmt_ok (f : nat) (p p' : t) (n : ASTNode) :
  unorderedListStmt f p = Return n p' -> emphasisOk n = true.
Proof.
  unfold unorderedListStmt. intros H. inv_M.
  eapply unorderedListStmt_loop_ok; [eassumption|reflexivity].
Qed.

Lemma formatStmt_ok (f : nat) (p p' : t) (n : ASTNode) :
  formatStmt f p = Return n p' -> emphasisOk n = true.
Proof.
  unfold formatStmt. intros H. inv_M.
  destruct (tokenType (currentToken p)); cbv beta iota in H; simpl in H; inv_M;
    first [ reflexivity
          | eapply textStmt_ok; eassumption
          | eapply allCharsStmt_node; eassumption
          | eapply boldStmt_shape; eassumption
          | eapply italicStmt_shape; eassumption
          | eapply monoSpaceStmt_ok; eassumption
          | eapply codeStmt_ok; eassumption
          | eapply headerStmt_ok; eassumption
          | eapply unorderedListStmt_ok; eassumption ].
Qed.

Lemma rootStmt_loop_ok (f : nat) :
  forall nodes p nodes' p',
    rootStmt_loop f nodes p = Return nodes' p' ->
    childrenOk RootNode nodes = true ->
    childrenOk RootNode nodes' = true.
Proof.
  induction f as [|f IH]; intros nodes p nodes' p' H Hok; [discriminate|].
  cbn [rootStmt_loop] in H. inv_M.
  destruct (negb (TokenType_eqb (tokenType (currentToken p)) EOF)); inv_M;
    [|exact Hok].
  eapply IH; [eassumption|]. apply childrenOk_snoc; trivial.
  eapply formatStmt_ok; eassumption.
Qed.

Lemma parse_document_emphasisOk (fuel : nat) (inp : string) (root : ASTNode) :
  parse_document fuel inp = Document root -> emphasisOk root = true.
Proof.
  unfold parse_document.
  destruct (Parser.new (Lexer.new inp)) as [p|e]; [|discriminate].
  destruct (rootStmt fuel p) as [n q| |] eqn:H; try discriminate.
  intros Hd. injection Hd as <-.
  unfold rootStmt in H. inv_M.
  eapply rootStmt_loop_ok; [eassumption|reflexivity].
Qed.

(** C7. The document of ["_**Hello**_"] has exactly one child, an Italic
    node, whose single child is a Bold node, whose single child is the Text
    node ["Hello"].  In every document the parser returns, the children of
    a Bold node are Text and Italic nodes only and the children of an
    Italic node are Text and Bold nodes only. *)
Theorem C7_italic_around_bold :
  (forall k : nat,
     parse_document (7 + k) "_**Hello**_"
     = Document
         (rootNode
            [Node Italic (mkToken "_" ITALIC) None
               [Node Bold (mkToken "**" BOLD) None [textNode "Hello"]]])) /\
  (forall (fuel : nat) (inp : string) (root : ASTNode),
     parse_document fuel inp = Document root -> emphasisOk root = true).
Proof.
  split.
  - apply parse_document_at_least; [vm_compute; reflexivity | discriminate].
  - exact parse_document_emphasisOk.
Qed.

Lemma C7_italic_around_bold_witness :
  emphasisOk
    (rootNode
       [Node Italic (mkToken "_" ITALIC) None
          [Node Bold (mkToken "**" BOLD) None
             [Node Italic (mkToken "_" ITALIC) None [textNode "a b"]];
           textNode "c"]]) = true.
Proof.
  exact (proj2 C7_italic_around_bold 12%nat "_**_a b_**c_"
           (rootNode
              [Node Italic (mkToken "_" ITALIC) None
                 [Node Bold (mkToken "**" BOLD) None
                    [Node Italic (mkToken "_" ITALIC) None [textNode "a b"]];
                  textNode "c"]])
           eq_refl).
Defined.

(** ** Headers (C8) *)

Lemma formatStmt_header (fuel : nat) (p : t) :
  headers (tokenType (currentToken p)) <> None ->
  formatStmt fuel p = headerStmt fuel p.
Proof.
  intros H. unfold formatStmt, bind at 1, current.
  destruct (tokenType (currentToken p)); simpl in H; try congruence; reflexivity.
Qed.

Lemma rootStmt_loop_Raise (fuel : nat) (nodes : list ASTNode) (p : t) (e : Error) :
  tokenType (currentToken p) <> EOF ->
  formatStmt fuel p = Raise e ->
  rootStmt_loop (S fuel) nodes p = Raise e.
Proof.
  intros Hne H. cbn [rootStmt_loop]. unfold bind at 1, current.
  apply TokenType_eqb_neq in Hne. rewrite Hne. simpl.
  unfold bind. rewrite H. reflexivity.
Qed.

(** C8. The document of ["### Title"] has exactly one child, a Header3
    node, whose single child is the Text node ["Title"].  When the token
    after a header token is not a [SPACE] token, [headerStmt] throws the
    invalid-token error on that token, and so do [formatStmt] and the loop
    of [rootStmt] entered on the header token. *)
Theorem C8_header3_and_missing_space :
  (forall k : nat,
     parse_document (3 + k) "### Title"
     = Document
         (rootNode [Node Header3 (mkToken "###" HEADER3) None [textNode "Title"]])) /\
  (forall (fuel : nat) (p p1 : t),
     headers (tokenType (currentToken p)) <> None ->
     Parser.new (lexer p) = Ok p1 ->
     tokenType (currentToken p1) <> SPACE ->
     headerStmt fuel p = Raise (InvalidToken (currentToken p1)) /\
     formatStmt fuel p = Raise (InvalidToken (currentToken p1)) /\
     forall nodes, rootStmt_loop (S fuel) nodes p = Raise (InvalidToken (currentToken p1))).
Proof.
  split.
  - apply parse_document_at_least; [vm_compute; reflexivity | discriminate].
  - intros fuel p p1 Hh Hn Hsp.
    assert (H : headerStmt fuel p = Raise (InvalidToken (currentToken p1))).
    { unfold headerStmt, bind at 1, current.
      destruct (headers (tokenType (currentToken p))) as [ty|]; [|congruence].
      unfold bind at 1. rewrite eat_match by reflexivity. rewrite Hn.
      unfold bind at 1. rewrite eat_mismatch by assumption. reflexivity. }
    split; [exact H|]. split.
    + rewrite formatStmt_header by assumption. exact H.
    + intros nodes. apply rootStmt_loop_Raise.
      * intros E. rewrite E in Hh. apply Hh. reflexivity.
      * rewrite formatStmt_header by assumption. exact H.
Qed.

Lemma C8_header3_and_missing_space_witness :
  headerStmt 1 (parserOn "###Title") = Raise (InvalidToken (mkToken "Title" STRING)).
Proof.
  pose (p1 := {| lexer := {| Lexer.position := 7; Lexer.input := "###Title";
                             Lexer.currentChar := Char NUL;
                             Lexer.currentToken := mkToken "Title" STRING |};
                 currentToken := mkToken "Title" STRING |}).
  apply (proj2 C8_header3_and_missing_space 1%nat (parserOn "###Title") p1).
  - discriminate.
  - reflexivity.
  - discriminate.
Defined.

(** ** Code blocks (C5) *)

(** C5. [codeStmt] returns a node exactly on a fenced block (given fuel for
    the body), and the node it returns is a Code node whose [languageName]
    is the text of the [STRING] token after the opening fence and whose
    only child is a Text node holding the concatenated body.  When the
    token after the language tag is not a [NEWLINE] token, [codeStmt]
    throws the invalid-token error on that token. *)
Theorem C5_code_block :
  (forall (fuel : nat) (p p' : t) (node : ASTNode),
     codeStmt fuel p = Return node p' ->
     exists lang body,
       fencedBlock p lang body p' /\
       node = Node Code (currentToken p) (Some (tokenValue lang))
                [textNode (joinText body)]) /\
  (forall (fuel : nat) (p p' : t) (lang : Token) (body : list Token),
     fencedBlock p lang body p' ->
     (length body < fuel)%nat ->
     codeStmt fuel p
     = Return (Node Code (currentToken p) (Some (tokenValue lang))
                 [textNode (joinText body)]) p') /\
  (forall (fuel : nat) (p p1 p2 : t),
     tokenType (currentToken p) = CODE -> Parser.new (lexer p) = Ok p1 ->
     tokenType (currentToken p1) = STRING -> Parser.new (lexer p1) = Ok p2 ->
     tokenType (currentToken p2) <> NEWLINE ->
     codeStmt fuel p = Raise (InvalidToken (currentToken p2))).
Proof.
  split; [|split].
  - intros fuel p p' node H. unfold codeStmt in H. inv_M.
    repeat match goal with
           | He : eat _ _ = Return _ _ |- _ =>
               apply eat_Return in He; destruct He as [? ?]
           end.
    match goal with
    | Hn : allCharsStmt _ _ = Return _ _ |- _ =>
        apply allCharsStmt_inv in Hn; destruct Hn as (body & Hrun & ->)
    end.
    eexists. exists body. split; [|reflexivity].
    unfold fencedBlock. do 4 eexists. repeat split; eassumption.
  - intros fuel p p' lang body (p1 & p2 & p3 & p4 & H) Hf.
    destruct H as (Hc & Hn & <- & Hs & Hn1 & Hnl & Hn2 & Hrun & Hc4 & Hn4).
    unfold codeStmt, bind at 1, current.
    unfold bind at 1. rewrite eat_match by assumption. rewrite Hn.
    unfold bind at 1, current.
    unfold bind at 1. rewrite eat_match by assumption. rewrite Hn1.
    unfold bind at 1. rewrite eat_match by assumption. rewrite Hn2.
    unfold bind at 1. rewrite (allCharsStmt_run p3 p4 body) by assumption.
    unfold bind at 1. rewrite eat_match by assumption. rewrite Hn4.
    reflexivity.
  - intros fuel p p1 p2 Hc Hn Hs Hn1 Hnl.
    unfold codeStmt, bind at 1, current.
    unfold bind at 1. rewrite eat_match by assumption. rewrite Hn.
    unfold bind at 1, current.
    unfold bind at 1. rewrite eat_match by assumption. rewrite Hn1.
    unfold bind at 1. rewrite eat_mismatch by assumption. reflexivity.
Qed.

Lemma C5_code_block_witness :
  let p' := {| lexer := {| Lexer.position := 13;
                           Lexer.input := "```js" ++ nl ++ "abc def```";
                           Lexer.currentChar := Char NUL;
                           Lexer.currentToken := eofToken |};
               currentToken := eofToken |} in
  (exists lang body,
     fencedBlock (parserOn ("```js" ++ nl ++ "abc def```")) lang body p' /\
     Node Code (mkToken "```" CODE) (Some "js") [textNode "abc def"]
     = Node Code (mkToken "```" CODE) (Some (tokenValue lang))
         [textNode (joinText body)]) /\
  codeStmt 1 (parserOn "```js abc```") = Raise (InvalidToken (mkToken " " SPACE)).
Proof.
  intros p'. split.
  - exact (proj1 C5_code_block 4%nat (parserOn ("```js" ++ nl ++ "abc def```")) p'
             (Node Code (mkToken "```" CODE) (Some "js") [textNode "abc def"])
             eq_refl).
  - pose (p1 := {| lexer := {| Lexer.position := 5; Lexer.input := "```js abc```";
                               Lexer.currentChar := Char " ";
                               Lexer.currentToken := mkToken "js" STRING |};
                   currentToken := mkToken "js" STRING |}).
    pose (p2 := {| lexer := {| Lexer.position := 6; Lexer.input := "```js abc```";
                               Lexer.currentChar := Char "a";
                               Lexer.currentToken := mkToken " " SPACE |};
                   currentToken := mkToken " " SPACE |}).
    apply (proj2 (proj2 C5_code_block) 1%nat (parserOn "```js abc```") p1 p2).
    + reflexivity.
    + reflexivity.
    + reflexivity.
    + reflexivity.
    + discriminate.
Defined.

(** ** The closing [eat] of a bold span *)





End ParserFacts.

(** * The lexer as a whole *)

Module LexerMore.
Import Lexer LexerFacts.

(** ** What [advance] and the text loop keep *)

Lemma moved_refl (l : t) : moved l l.
Proof.
  unfold moved. split; [reflexivity|]. split; [reflexivity|].
  split; [lia|]. split; [left; reflexivity|]. auto.
Qed.

Lemma moved_trans (l1 l2 l3 : t) : moved l1 l2 -> moved l2 l3 -> moved l1 l3.
Proof.
  intros (Hi & Ht & Hp & Hb & Hs) (Hi' & Ht' & Hp' & Hb' & Hs').
  unfold moved. rewrite Hi in *.
  split; [congruence|]. split; [congruence|]. split; [lia|].
  split; [|auto].
  destruct Hb' as [Hb' | Hb']; [|right; exact Hb'].
  destruct Hb as [Hb | Hb]; [left | right]; lia.
Qed.

Lemma advance_moved (k : Z) (l : t) : 0 <= k -> moved l (advance k l).
Proof.
  intros Hk. unfold moved, advance.
  destruct (position l + k >? len (input l) - 1) eqn:E; simpl;
    rewrite Z.gtb_ltb in E;
    [apply Z.ltb_lt in E | apply Z.ltb_ge in E];
    (split; [reflexivity|]); (split; [reflexivity|]); (split; [lia|]);
    (split; [lia|]); intros [H0 _]; unfold inStep; simpl; (split; [lia|]).
  - left. reflexivity.
  - right. reflexivity.
Qed.

Lemma getTextToken_loop_moved (fuel : nat) :
  forall s l, moved l (snd (getTextToken_loop fuel s l)).
Proof.
  induction fuel as [|fuel IH]; intros s l; simpl; [apply moved_refl|].
  destruct (isAlphaNumeric (toStr (currentChar l))); [|apply moved_refl].
  eapply moved_trans; [apply (advance_moved 1); lia | apply IH].
Qed.

Lemma getTextToken_moved (l : t) : moved l (snd (getTextToken l)).
Proof.
  unfold getTextToken.
  pose proof (getTextToken_loop_moved (textFuel l) "" l) as H.
  destruct (getTextToken_loop (textFuel l) "" l). exact H.
Qed.

Lemma getHeaderToken_moved (l : t) : moved l (snd (getHeaderToken l)).
Proof.
  unfold getHeaderToken.
  repeat match goal with
         | |- context [if ?b then _ else _] => destruct b
         end; simpl; apply advance_moved; lia.
Qed.

Lemma getCodeToken_moved (l : t) : moved l (snd (getCodeToken l)).
Proof.
  unfold getCodeToken. destruct (_ && _); simpl; apply advance_moved; lia.
Qed.

Lemma classify_moved (l l' : t) (tok : Token) :
  classify l = Ok (tok, l') -> moved l l'.
Proof.
  unfold classify. intros H.
  destruct (currentChar l) as [|c].
  - injection H as H. rewrite (surjective_pairing (getTextToken l)) in H.
    injection H as _ <-. apply getTextToken_moved.
  - repeat match type of H with
           | context [if ?b then _ else _] => destruct b
           end;
      try (unfold invalidCharacterError in H; discriminate);
      try (injection H as _ <-; first [apply moved_refl | apply advance_moved; lia]).
    + injection H as H. rewrite (surjective_pairing (getHeaderToken l)) in H.
      injection H as _ <-. apply getHeaderToken_moved.
    + injection H as H. rewrite (surjective_pairing (getCodeToken l)) in H.
      injection H as _ <-. apply getCodeToken_moved.
    + injection H as H. rewrite (surjective_pairing (getTextToken l)) in H.
      injection H as _ <-. apply getTextToken_moved.
Qed.

Lemma getNextToken_classify (l l' : t) (tok : Token) :
  getNextToken l = Ok (tok, l') ->
  exists l0, classify l = Ok (tok, l0) /\
    l' = {| position := position l0; input := input l0;
            currentChar := currentChar l0; currentToken := tok |}.
Proof.
  unfold getNextToken. destruct (classify l) as [[tok0 l0]|e]; [|discriminate].
  rewrite setToken_fields. intros H. injection H as <- <-.
  exists l0. auto.
Qed.

Lemma getNextToken_same_input (l l' : t) (tok : Token) :
  getNextToken l = Ok (tok, l') -> input l' = input l.
Proof.
  intros H. apply getNextToken_classify in H. destruct H as (l0 & Hc & ->).
  apply classify_moved in Hc. destruct Hc as (Hi & _). exact Hi.
Qed.

(** X1. A token request never changes the input and never moves the
    position backwards; a position that changes stays inside the input.
    The lexer records the token it returns, and it stays in step with its
    input: afterwards the current character is still the sentinel or the
    character at the position. *)
Theorem getNextToken_keeps_in_step (l l' : t) (tok : Token) :
  getNextToken l = Ok (tok, l') ->
  input l' = input l /\
  currentToken l' = tok /\
  position l <= position l' /\
  (position l' = position l \/ position l' <= len (input l) - 1) /\
  (inStep l -> inStep l').
Proof.
  intros H. apply getNextToken_classify in H. destruct H as (l0 & Hc & ->).
  apply classify_moved in Hc. destruct Hc as (Hi & _ & Hp & Hb & Hs).
  simpl. repeat split; auto.
  - destruct (Hs H) as [H0 _]. exact H0.
  - destruct (Hs H) as [_ H1]. exact H1.
Qed.

Lemma getNextToken_keeps_in_step_witness :
  exists l',
    getNextToken (Lexer.new "ab cd") = Ok (mkToken "ab" STRING, l') /\
    position l' = 2 /\ inStep l'.
Proof.
  eexists. split; [reflexivity|]. split; [reflexivity|].
  apply (getNextToken_keeps_in_step (Lexer.new "ab cd") _ _ eq_refl).
  split; [simpl; lia|]. right. reflexivity.
Defined.

(** ** Errors *)

(** X2. A token request throws in one case only: on a ['*'] that is not
    followed by a second ['*'].  The error then carries that ['*'] and the
    position of the lexer; on every other state a token is returned. *)
Theorem getNextToken_throws_iff (l : t) (e : Error) :
  getNextToken l = Throw e <->
  currentChar l = Char "*" /\ peek 1 l <> "*" /\
  e = InvalidCharacter (Char "*") (position l).
Proof.
  unfold getNextToken, classify. split.
  - intros H. destruct (currentChar l) as [|c] eqn:Hc; [discriminate|].
    destruct (Ascii.eqb c "*") eqn:Estar.
    + apply Ascii.eqb_eq in Estar. subst c. simpl in H.
      destruct (peek 1 l =? "*")%string eqn:Ep; [discriminate|].
      apply String.eqb_neq in Ep. unfold invalidCharacterError in H.
      rewrite Hc in H. injection H as <-. auto.
    + exfalso.
      repeat match type of H with
             | context [if ?b then _ else _] => destruct b
             end; discriminate.
  - intros (Hc & Hp & ->). rewrite Hc. simpl.
    apply String.eqb_neq in Hp. rewrite Hp.
    unfold invalidCharacterError. rewrite Hc. reflexivity.
Qed.

Lemma getNextToken_throws_iff_witness :
  getNextToken {| position := 1; input := "a*b"; currentChar := Char "*";
                  currentToken := mkToken "a" STRING |}
  = Throw (InvalidCharacter (Char "*") 1).
Proof.
  apply getNextToken_throws_iff. split; [reflexivity|]. split; [|reflexivity].
  vm_compute. discriminate.
Defined.

(** ** The text of a token *)

Lemma allClass_append (a b : string) :
  allClass a = true -> allClass b = true -> allClass (a ++ b) = true.
Proof.
  induction a as [|c a IH]; simpl; intros Ha Hb; [exact Hb|].
  apply andb_true_iff in Ha. destruct Ha as [Hc Ha].
  rewrite Hc, IH; auto.
Qed.

Lemma isAlphaNumeric_allClass (s : string) :
  isAlphaNumeric s = true -> allClass s = true.
Proof. destruct s; [discriminate|]. auto. Qed.

Lemma getTextToken_loop_allClass (fuel : nat) :
  forall s l, allClass s = true ->
    allClass (fst (getTextToken_loop fuel s l)) = true.
Proof.
  induction fuel as [|fuel IH]; intros s l Hs; simpl; [exact Hs|].
  destruct (isAlphaNumeric (toStr (currentChar l))) eqn:E; [|exact Hs].
  apply IH. apply allClass_append; [exact Hs|].
  apply isAlphaNumeric_allClass, E.
Qed.

Lemma getTextToken_tokenOk (l : t) : tokenOk (fst (getTextToken l)) = true.
Proof.
  unfold getTextToken.
  pose proof (getTextToken_loop_allClass (textFuel l) "" l eq_refl) as H.
  destruct (getTextToken_loop (textFuel l) "" l). exact H.
Qed.

Lemma getHeaderToken_tokenOk (l : t) : tokenOk (fst (getHeaderToken l)) = true.
Proof.
  unfold getHeaderToken.
  repeat match goal with
         | |- context [if ?b then _ else _] => destruct b
         end; reflexivity.
Qed.

Lemma getCodeToken_tokenOk (l : t) : tokenOk (fst (getCodeToken l)) = true.
Proof. unfold getCodeToken. destruct (_ && _); reflexivity. Qed.

Lemma classify_tokenOk (l l0 : t) (tok : Token) :
  classify l = Ok (tok, l0) -> tokenOk tok = true.
Proof.
  intros H. unfold classify in H.
  destruct (currentChar l) as [|c].
  - injection H as H. rewrite (surjective_pairing (getTextToken l)) in H.
    injection H as <- _. apply getTextToken_tokenOk.
  - repeat match type of H with
           | context [if ?b then _ else _] => destruct b
           end;
      try (unfold invalidCharacterError in H; discriminate);
      try (injection H as <- _; reflexivity).
    + injection H as H. rewrite (surjective_pairing (getHeaderToken l)) in H.
      injection H as <- _. apply getHeaderToken_tokenOk.
    + injection H as H. rewrite (surjective_pairing (getCodeToken l)) in H.
      injection H as <- _. apply getCodeToken_tokenOk.
    + injection H as H. rewrite (surjective_pairing (getTextToken l)) in H.
      injection H as <- _. apply getTextToken_tokenOk.
Qed.

(** X3. Every token the lexer returns carries the text of its kind: the
    fixed text of a delimiter (["**"], ["_"], ["-"], ["---"], one to five
    ['#'], one or three backticks, a space, a newline, the sentinel), and
    for a [STRING] token a text of alphanumeric characters only.  No token
    is returned with the kind [UNTYPED]. *)
Theorem getNextToken_tokenOk (l l' : t) (tok : Token) :
  getNextToken l = Ok (tok, l') -> tokenOk tok = true.
Proof.
  intros H. apply getNextToken_classify in H. destruct H as (l0 & H & _).
  eapply classify_tokenOk, H.
Qed.

Lemma getNextToken_tokenOk_witness :
  tokenOk (mkToken "abc9" STRING) = true.
Proof.
  exact (getNextToken_tokenOk
           {| position := 2; input := "a abc9 b"; currentChar := Char "a";
              currentToken := mkToken " " SPACE |}
           {| position := 6; input := "a abc9 b"; currentChar := Char " ";
              currentToken := mkToken "abc9" STRING |}
           (mkToken "abc9" STRING) eq_refl).
Defined.

(** X4. A [STRING] token is a maximal run: after the lexer has returned
    one, its current character is not alphanumeric, so two [STRING] tokens
    never split one run of alphanumeric characters. *)
Theorem getNextToken_string_maximal (l l' : t) (tok : Token) :
  getNextToken l = Ok (tok, l') ->
  tokenType tok = STRING ->
  isAlphaNumeric (toStr (currentChar l')) = false.
Proof.
  intros H Hty. apply getNextToken_classify in H. destruct H as (l0 & H & ->).
  simpl. unfold classify in H.
  assert (Htext : (tok, l0) = getTextToken l ->
                  isAlphaNumeric (toStr (currentChar l0)) = false).
  { intros E. pose proof (getTextToken_exit l) as Hx. rewrite <- E in Hx. exact Hx. }
  destruct (currentChar l) as [|c].
  - injection H as H. auto.
  - repeat match type of H with
           | context [if ?b then _ else _] => destruct b
           end;
      try (unfold invalidCharacterError in H; discriminate);
      try (injection H as <- _; discriminate Hty).
    + exfalso. injection H as H. unfold getHeaderToken in H.
      repeat match type of H with
             | context [if ?b then _ else _] => destruct b
             end; injection H as <- _; discriminate Hty.
    + exfalso. injection H as H. unfold getCodeToken in H.
      destruct (_ && _); injection H as <- _; discriminate Hty.
    + injection H as H. auto.
Qed.

Lemma getNextToken_string_maximal_witness :
  isAlphaNumeric (toStr (Char " ")) = false.
Proof.
  exact (getNextToken_string_maximal
           {| position := 2; input := "a abc9 b"; currentChar := Char "a";
              currentToken := mkToken " " SPACE |}
           {| position := 6; input := "a abc9 b"; currentChar := Char " ";
              currentToken := mkToken "abc9" STRING |}
           (mkToken "abc9" STRING) eq_refl eq_refl).
Defined.

(** ** Header levels *)

(** X5. Where the current character begins a run of exactly [k] ['#'], for
    [k] from 1 to 4 (the character after the run is another one, or the
    input ends), the next token is the header token of level [k], with a
    text of [k] ['#'], and the lexer has advanced by [k]. *)
Theorem getNextToken_header_level (l : t) (k : nat) :
  (1 <= k <= 4)%nat ->
  currentChar l = Char "#" ->
  (forall i, 0 <= i < Z.of_nat k ->
     charAt (input l) (position l + i) = Char "#") ->
  charAt (input l) (position l + Z.of_nat k) <> Char "#" ->
  getNextToken l = Ok (setToken (headerToken k, advance (Z.of_nat k) l)).
Proof.
  intros Hk Hc Hrun Hstop.
  unfold getNextToken, classify, getHeaderToken, peekSequence. rewrite Hc.
  change (Ascii.eqb "#" NUL) with false. change (Ascii.eqb "#" " ") with false.
  change (Ascii.eqb "#" "_") with false. change (Ascii.eqb "#" "*") with false.
  change (Ascii.eqb "#" "-") with false. change (Ascii.eqb "#" "#") with true.
  cbv iota. cbn [peekSequence_loop].
  destruct (position l =? len (input l) - 1) eqn:Elast.
  - (* the run starts on the last character: the loop breaks at once *)
    apply Z.eqb_eq in Elast.
    assert (k = 1%nat) as ->.
    { destruct k as [|[|k]]; [lia|reflexivity|].
      pose proof (charAt_Char_range _ _ _ (Hrun 1 ltac:(lia))). lia. }
    reflexivity.
  - pose proof (Hrun 0 ltac:(lia)) as H0. rewrite Z.add_0_r in H0.
    destruct k as [|[|[|[|[|k]]]]]; try lia.
    + (* k = 1 *)
      change (Z.of_nat 1) with 1 in *.
      rewrite H0. cbn [toStr append].
      destruct (charAt (input l) (position l + 1)) as [|c1] eqn:E1.
      * reflexivity.
      * assert (Ascii.eqb c1 "#" = false) as Hc1.
        { apply Ascii.eqb_neq. intros ->. apply Hstop. reflexivity. }
        cbn [toStr append String.eqb]. change (Ascii.eqb "#" "#") with true.
        cbv iota. rewrite Hc1. reflexivity.
    + (* k = 2 *)
      change (Z.of_nat 2) with 2 in *.
      pose proof (Hrun 1 ltac:(lia)) as H1.
      replace (position l + 2) with (position l + 1 + 1) in Hstop by lia.
      rewrite H0, H1. cbn [toStr append].
      destruct (charAt (input l) (position l + 1 + 1)) as [|c1] eqn:E1.
      * reflexivity.
      * assert (Ascii.eqb c1 "#" = false) as Hc1.
        { apply Ascii.eqb_neq. intros ->. apply Hstop. reflexivity. }
        cbn [toStr append String.eqb]. change (Ascii.eqb "#" "#") with true.
        cbv iota. rewrite Hc1. reflexivity.
    + (* k = 3 *)
      change (Z.of_nat 3) with 3 in *.
      pose proof (Hrun 1 ltac:(lia)) as H1.
      pose proof (Hrun 2 ltac:(lia)) as H2.
      replace (position l + 2) with (position l + 1 + 1) in H2 by lia.
      replace (position l + 3) with (position l + 1 + 1 + 1) in Hstop by lia.
      rewrite H0, H1, H2. cbn [toStr append].
      destruct (charAt (input l) (position l + 1 + 1 + 1)) as [|c1] eqn:E1.
      * reflexivity.
      * assert (Ascii.eqb c1 "#" = false) as Hc1.
        { apply Ascii.eqb_neq. intros ->. apply Hstop. reflexivity. }
        cbn [toStr append String.eqb]. change (Ascii.eqb "#" "#") with true.
        cbv iota. rewrite Hc1. reflexivity.
    + (* k = 4 *)
      change (Z.of_nat 4) with 4 in *.
      pose proof (Hrun 1 ltac:(lia)) as H1.
      pose proof (Hrun 2 ltac:(lia)) as H2.
      pose proof (Hrun 3 ltac:(lia)) as H3.
      replace (position l + 2) with (position l + 1 + 1) in H2 by lia.
      replace (position l + 3) with (position l + 1 + 1 + 1) in H3 by lia.
      replace (position l + 4) with (position l + 1 + 1 + 1 + 1) in Hstop by lia.
      rewrite H0, H1, H2, H3. cbn [toStr append].
      destruct (charAt (input l) (position l + 1 + 1 + 1 + 1)) as [|c1] eqn:E1.
      * reflexivity.
      * assert (Ascii.eqb c1 "#" = false) as Hc1.
        { apply Ascii.eqb_neq. intros ->. apply Hstop. reflexivity. }
        cbn [toStr append String.eqb]. change (Ascii.eqb "#" "#") with true.
        cbv iota. rewrite Hc1. reflexivity.
Qed.

Lemma getNextToken_header_level_witness :
  getNextToken (Lexer.new "## x")
  = Ok (mkToken "##" HEADER2,
        {| position := 2; input := "## x"; currentChar := Char " ";
           currentToken := mkToken "##" HEADER2 |}).
Proof.
  apply (getNextToken_header_level (Lexer.new "## x") 2).
  - lia.
  - reflexivity.
  - intros i Hi. assert (i = 0 \/ i = 1) as [-> | ->] by lia; reflexivity.
  - discriminate.
Defined.

(** ** The tokens spell the input *)

Lemma charAt_get (s : string) (i : Z) (c : ascii) :
  charAt s i = Char c -> String.get (Z.to_nat i) s = Some c.
Proof.
  unfold charAt. destruct (i <? 0); [discriminate|].
  destruct (String.get (Z.to_nat i) s); [|discriminate].
  intros H. injection H as <-. reflexivity.
Qed.

Lemma charAt_in_range (s : string) (i : Z) :
  0 <= i < len s -> exists c, charAt s i = Char c.
Proof.
  intros Hi. unfold charAt.
  destruct (i <? 0) eqn:E; [apply Z.ltb_lt in E; lia|].
  destruct (String.get (Z.to_nat i) s) as [c|] eqn:Hg; [eauto|].
  exfalso. revert Hg. unfold len in Hi.
  assert (Hn : (Z.to_nat i < String.length s)%nat) by lia.
  revert Hn. generalize (Z.to_nat i). clear.
  induction s as [|a s IH]; intros [|n] Hn; simpl in *; try lia; try discriminate.
  apply IH. lia.
Qed.

Lemma dropS_get (s : string) :
  forall n c, String.get n s = Some c -> dropS n s = String c (dropS (S n) s).
Proof.
  induction s as [|a s IH]; intros [|n] c H; simpl in *; try discriminate.
  - injection H as <-. destruct s; reflexivity.
  - rewrite (IH n c H). reflexivity.
Qed.

Lemma dropS_all (s : string) :
  forall n, (String.length s <= n)%nat -> dropS n s = "".
Proof.
  induction s as [|a s IH]; intros [|n] H; simpl in *; try reflexivity; try lia.
  apply IH. lia.
Qed.

Lemma dropS_spells (w : string) :
  forall (inp : string) (pos : Z),
    0 <= pos -> spells inp pos w ->
    dropS (Z.to_nat pos) inp = w ++ dropS (Z.to_nat (pos + len w)) inp.
Proof.
  induction w as [|c w IH]; intros inp pos Hpos Hsp.
  - unfold len. simpl. rewrite Z.add_0_r. reflexivity.
  - pose proof (Hsp 0%nat c eq_refl) as H0. simpl in H0. rewrite Z.add_0_r in H0.
    rewrite (dropS_get inp _ c (charAt_get _ _ _ H0)).
    replace (S (Z.to_nat pos)) with (Z.to_nat (pos + 1)) by lia.
    rewrite (IH inp (pos + 1)); [| lia |].
    + simpl. do 3 f_equal. unfold len. simpl String.length. lia.
    + intros i ch Hi. replace (pos + 1 + Z.of_nat i) with (pos + Z.of_nat (S i)) by lia.
      apply Hsp. exact Hi.
Qed.

Lemma spells_in_range (w : string) (inp : string) (pos : Z) :
  spells inp pos w -> w <> "" -> pos + len w <= len inp.
Proof.
  intros Hsp Hw.
  assert (exists c, String.get (String.length w - 1) w = Some c) as [c Hc].
  { clear Hsp. induction w as [|a w IH]; [contradiction|].
    destruct w as [|b w]; [exists a; reflexivity|].
    destruct IH as [c Hc]; [discriminate|]. exists c.
    simpl in *. rewrite Nat.sub_0_r in Hc. exact Hc. }
  pose proof (charAt_Char_range _ _ _ (Hsp _ _ Hc)) as Hr.
  assert (String.length w <> 0%nat) by (destruct w; [contradiction|discriminate]).
  unfold len in *. lia.
Qed.

Lemma rest_onInput (l : t) :
  noNul (input l) -> onInput l ->
  rest l = dropS (Z.to_nat (position l)) (input l).
Proof.
  intros Hn [Hr Hc]. unfold rest. rewrite Hc.
  destruct (charAt_in_range _ _ Hr) as [c Hcc]. rewrite Hcc. simpl.
  destruct (Ascii.eqb c NUL) eqn:E; [|reflexivity].
  apply Ascii.eqb_eq in E. subst c. exfalso. apply (Hn _ Hcc).
Qed.

Lemma advance_rest (l : t) (k : Z) :
  noNul (input l) -> 0 <= position l -> 0 < k ->
  position l + k <= len (input l) ->
  settled (advance k l) /\
  rest (advance k l) = dropS (Z.to_nat (position l + k)) (input l).
Proof.
  intros Hn Hp Hk Hr. unfold advance.
  destruct (position l + k >? len (input l) - 1) eqn:E;
    rewrite Z.gtb_ltb in E; [apply Z.ltb_lt in E | apply Z.ltb_ge in E].
  - split; [right; reflexivity|].
    unfold rest. simpl. symmetry. apply dropS_all. unfold len in *. lia.
  - assert (Hon : onInput {| position := position l + k; input := input l;
                            currentChar := charAt (input l) (position l + k);
                            currentToken := currentToken l |}).
    { split; simpl; [lia|reflexivity]. }
    split; [left; exact Hon|].
    rewrite rest_onInput; auto.
Qed.

(** Consuming the text [w] that the input spells at the position. *)
Lemma consume (l : t) (w : string) :
  noNul (input l) -> onInput l -> w <> "" ->
  spells (input l) (position l) w ->
  settled (advance (len w) l) /\ rest l = w ++ rest (advance (len w) l).
Proof.
  intros Hn Hon Hw Hsp.
  pose proof (spells_in_range w _ _ Hsp Hw) as Hr.
  destruct Hon as [Hpos Hc].
  assert (0 < len w).
  { unfold len. destruct w; [contradiction|]. simpl String.length. lia. }
  destruct (advance_rest l (len w) Hn ltac:(lia) H Hr) as [Hs Hrest].
  split; [exact Hs|].
  rewrite Hrest, rest_onInput by (auto; split; auto).
  apply dropS_spells; [lia | exact Hsp].
Qed.

Lemma peek_char (l : t) (k : Z) (c : ascii) :
  (peek k l =? String c "")%string = true ->
  charAt (input l) (position l + k) = Char c.
Proof.
  unfold peek. intros H. apply String.eqb_eq in H.
  destruct (len (input l) - 1 >=? position l + k); [|discriminate].
  destruct (charAt (input l) (position l + k)) as [|d]; simpl in H.
  - discriminate.
  - injection H as ->. reflexivity.
Qed.

Lemma spells_one (l : t) (c : ascii) :
  onInput l -> currentChar l = Char c ->
  spells (input l) (position l) (String c "").
Proof.
  intros [_ Hc] Hcur [|i] d H; simpl in H; [|discriminate].
  injection H as <-. simpl. rewrite Z.add_0_r. congruence.
Qed.

Lemma spells_cons (inp : string) (pos : Z) (c : ascii) (w : string) :
  charAt inp pos = Char c -> spells inp (pos + 1) w ->
  spells inp pos (String c w).
Proof.
  intros Hc Hw [|i] d H; simpl in H.
  - injection H as <-. simpl. rewrite Z.add_0_r. exact Hc.
  - replace (pos + Z.of_nat (S i)) with (pos + 1 + Z.of_nat i) by lia.
    apply Hw. exact H.
Qed.

Lemma spells_nil (inp : string) (pos : Z) : spells inp pos "".
Proof. intros i c H. destruct i; discriminate. Qed.

Lemma peekSequence_spells (n : nat) (l : t) :
  (2 <= n <= 5)%nat ->
  (peekSequence n l =? hashes n)%string = true ->
  spells (input l) (position l) (hashes n).
Proof.
  intros Hn H. unfold peekSequence in H.
  destruct n as [|[|[|[|[|[|n]]]]]]; try lia;
    cbn [peekSequence_loop] in H;
    (destruct (position l =? len (input l) - 1); [discriminate H|]);
    repeat match type of H with
           | context [charAt (input l) ?p] =>
               let E := fresh "E" in
               destruct (charAt (input l) p) as [|?c] eqn:E;
               cbn [String.eqb append toStr hashes repeat string_of_list_ascii] in H;
               [ change (Ascii.eqb "u" "#") with false in H; discriminate H
               | match type of H with
                 | context [Ascii.eqb ?x "#"] =>
                     let Ex := fresh "Ex" in
                     destruct (Ascii.eqb x "#") eqn:Ex;
                     [apply Ascii.eqb_eq in Ex; subst x | discriminate H]
                 end ]
           end;
    repeat (apply spells_cons; [eassumption|]); apply spells_nil.
Qed.

Lemma rest_retoken (l : t) (tok : Token) :
  rest {| position := position l; input := input l;
          currentChar := currentChar l; currentToken := tok |} = rest l.
Proof. reflexivity. Qed.

Lemma settled_retoken (l : t) (tok : Token) :
  settled l ->
  settled {| position := position l; input := input l;
             currentChar := currentChar l; currentToken := tok |}.
Proof. intros H. exact H. Qed.

Lemma getTextToken_loop_rest (fuel : nat) :
  forall s l,
    noNul (input l) -> settled l ->
    settled (snd (getTextToken_loop fuel s l)) /\
    exists w, fst (getTextToken_loop fuel s l) = s ++ w /\
              rest l = w ++ rest (snd (getTextToken_loop fuel s l)).
Proof.
  induction fuel as [|fuel IH]; intros s l Hn Hs; simpl.
  - split; [exact Hs|]. exists "". rewrite ParserFacts.append_empty_r. auto.
  - destruct (isAlphaNumeric (toStr (currentChar l))) eqn:Ea.
    + destruct Hs as [Hon | Hsent]; [|rewrite Hsent in Ea; discriminate Ea].
      destruct (charAt_in_range _ _ (proj1 Hon)) as [c Hc].
      assert (Hcur : currentChar l = Char c) by (rewrite (proj2 Hon); exact Hc).
      destruct (consume l (String c "") Hn Hon ltac:(discriminate)
                  (spells_one l c Hon Hcur)) as [Hs1 Hrest].
      change (len (String c "")) with 1 in Hs1, Hrest.
      assert (Hn1 : noNul (input (advance 1 l))).
      { destruct (advance_moved 1 l ltac:(lia)) as (Hi & _). rewrite Hi. exact Hn. }
      destruct (IH (s ++ toStr (currentChar l)) (advance 1 l) Hn1 Hs1)
        as (Hs2 & w & Hw & Hr2).
      split; [exact Hs2|].
      exists (String c w). split.
      * rewrite Hw, Hcur. simpl. rewrite sappend_assoc. reflexivity.
      * rewrite Hrest, Hr2. reflexivity.
    + split; [exact Hs|]. exists "". rewrite ParserFacts.append_empty_r. auto.
Qed.

Lemma getTextToken_rest (l : t) :
  noNul (input l) -> settled l ->
  settled (snd (getTextToken l)) /\
  rest l = tokenValue (fst (getTextToken l)) ++ rest (snd (getTextToken l)).
Proof.
  intros Hn Hs. unfold getTextToken.
  destruct (getTextToken_loop_rest (textFuel l) "" l Hn Hs) as (H1 & w & Hw & Hr).
  destruct (getTextToken_loop (textFuel l) "" l) as [s' l']. simpl in *.
  subst s'. auto.
Qed.

Lemma noNulb_sound (s : string) : noNulb s = true -> noNul s.
Proof.
  intros H i Hc. apply charAt_get in Hc. revert H Hc. generalize (Z.to_nat i).
  induction s as [|a s IH]; intros n H Hg; [destruct n; discriminate|].
  simpl in H. apply andb_true_iff in H. destruct H as [Ha Hs].
  destruct n as [|n]; simpl in Hg.
  - injection Hg as ->. discriminate Ha.
  - eapply IH; eassumption.
Qed.

(** One token request, on a lexer that stands on its input: the text of
    the token (any token but [EOF]) is what the lexer has consumed. *)
Lemma getNextToken_rest (l l' : t) (tok : Token) :
  noNul (input l) -> settled l ->
  getNextToken l = Ok (tok, l') ->
  tokenType tok <> EOF ->
  settled l' /\ rest l = tokenValue tok ++ rest l'.
Proof.
  intros Hn Hs H Hty.
  destruct Hs as [Hon | Hsent].
  2:{ rewrite getNextToken_at_sentinel in H by exact Hsent.
      injection H as <- _. exfalso. apply Hty. reflexivity. }
  apply getNextToken_classify in H. destruct H as (l0 & H & ->).
  rewrite rest_retoken.
  cut (settled l0 /\ rest l = tokenValue tok ++ rest l0).
  { intros [H1 H2]. split; [apply settled_retoken, H1 | exact H2]. }
  destruct (charAt_in_range _ _ (proj1 Hon)) as [c Hc].
  assert (Hcur : currentChar l = Char c) by (rewrite (proj2 Hon); exact Hc).
  assert (Hone : forall d, c = d ->
            settled (advance 1 l) /\ rest l = String d "" ++ rest (advance 1 l)).
  { intros d <-. apply (consume l (String c "") Hn Hon ltac:(discriminate)).
    apply spells_one; assumption. }
  unfold classify in H. rewrite Hcur in H.
  destruct (Ascii.eqb c NUL) eqn:E0.
  { injection H as <- _. exfalso. apply Hty. reflexivity. }
  destruct (Ascii.eqb c " ") eqn:E1.
  { apply Ascii.eqb_eq in E1. injection H as <- <-. apply Hone, E1. }
  destruct (Ascii.eqb c "_") eqn:E2.
  { apply Ascii.eqb_eq in E2. injection H as <- <-. apply Hone, E2. }
  destruct (Ascii.eqb c "*") eqn:E3.
  { apply Ascii.eqb_eq in E3. subst c.
    destruct (peek 1 l =? "*")%string eqn:Ep; [|discriminate H].
    injection H as <- <-.
    apply (consume l "**" Hn Hon ltac:(discriminate)).
    apply spells_cons; [exact Hc|].
    apply spells_cons; [apply peek_char, Ep | apply spells_nil]. }
  destruct (Ascii.eqb c "-") eqn:E4.
  { apply Ascii.eqb_eq in E4. subst c.
    destruct (peek 1 l =? "-")%string eqn:Ep1; simpl in H.
    - destruct (peek 2 l =? "-")%string eqn:Ep2; injection H as <- <-.
      + apply (consume l "---" Hn Hon ltac:(discriminate)).
        apply spells_cons; [exact Hc|].
        apply spells_cons; [apply peek_char, Ep1|].
        replace (position l + 1 + 1) with (position l + 2) by lia.
        apply spells_cons; [apply peek_char, Ep2 | apply spells_nil].
      + apply Hone. reflexivity.
    - injection H as <- <-. apply Hone. reflexivity. }
  destruct (Ascii.eqb c "#") eqn:E5.
  { apply Ascii.eqb_eq in E5. subst c. injection H as H.
    unfold getHeaderToken in H.
    destruct (peekSequence 5 l =? "#####")%string eqn:P5.
    { injection H as <- <-.
      apply (consume l "#####" Hn Hon ltac:(discriminate)).
      apply (peekSequence_spells 5 l ltac:(lia) P5). }
    destruct (peekSequence 4 l =? "####")%string eqn:P4.
    { injection H as <- <-.
      apply (consume l "####" Hn Hon ltac:(discriminate)).
      apply (peekSequence_spells 4 l ltac:(lia) P4). }
    destruct (peekSequence 3 l =? "###")%string eqn:P3.
    { injection H as <- <-.
      apply (consume l "###" Hn Hon ltac:(discriminate)).
      apply (peekSequence_spells 3 l ltac:(lia) P3). }
    destruct (peekSequence 2 l =? "##")%string eqn:P2.
    { injection H as <- <-.
      apply (consume l "##" Hn Hon ltac:(discriminate)).
      apply (peekSequence_spells 2 l ltac:(lia) P2). }
    injection H as <- <-. apply Hone. reflexivity. }
  destruct (Ascii.eqb c "`") eqn:E6.
  { apply Ascii.eqb_eq in E6. subst c. injection H as H.
    unfold getCodeToken in H.
    destruct (peek 1 l =? "`")%string eqn:Ep1; simpl in H.
    - destruct (peek 2 l =? "`")%string eqn:Ep2; injection H as <- <-.
      + apply (consume l "```" Hn Hon ltac:(discriminate)).
        apply spells_cons; [exact Hc|].
        apply spells_cons; [apply peek_char, Ep1|].
        replace (position l + 1 + 1) with (position l + 2) by lia.
        apply spells_cons; [apply peek_char, Ep2 | apply spells_nil].
      + apply Hone. reflexivity.
    - injection H as <- <-. apply Hone. reflexivity. }
  destruct (Ascii.eqb c LF) eqn:E7.
  { apply Ascii.eqb_eq in E7. injection H as <- <-. apply Hone, E7. }
  injection H as H. rewrite (surjective_pairing (getTextToken l)) in H.
  injection H as <- <-. apply getTextToken_rest; [exact Hn | left; exact Hon].
Qed.

Lemma tokens_rest (n : nat) :
  forall (l l' : t) (ts : list Token),
    noNul (input l) -> settled l ->
    tokens n l = Ok (ts, l') ->
    Forall (fun tok => tokenType tok <> EOF) ts ->
    settled l' /\ input l' = input l /\ rest l = joinText ts ++ rest l'.
Proof.
  induction n as [|n IH]; intros l l' ts Hn Hs H Hall; simpl in H.
  - injection H as <- <-. auto.
  - destruct (getNextToken l) as [[tok l1]|e] eqn:Hg; [|discriminate].
    destruct (tokens n l1) as [[ts1 l2]|e] eqn:Ht; [|discriminate].
    injection H as <- <-. inversion Hall as [|? ? Htok Hrest]; subst.
    destruct (getNextToken_rest l l1 tok Hn Hs Hg Htok) as [Hs1 Hr1].
    pose proof (getNextToken_same_input l l1 tok Hg) as Hi.
    destruct (IH l1 _ ts1 ltac:(rewrite Hi; exact Hn) Hs1 Ht Hrest)
      as (Hs2 & Hi2 & Hr2).
    split; [exact Hs2|]. split; [congruence|].
    simpl. rewrite Hr1, Hr2. rewrite sappend_assoc. reflexivity.
Qed.

Lemma rest_new (inp : string) :
  inp <> "" -> noNul inp ->
  settled (Lexer.new inp) /\ rest (Lexer.new inp) = inp.
Proof.
  intros Hne Hn. split.
  - left. split; simpl; [|reflexivity]. unfold len.
    destruct inp; [contradiction|]. simpl String.length. lia.
  - unfold rest. simpl. destruct inp as [|a inp]; [contradiction|]. simpl.
    destruct (Ascii.eqb a NUL) eqn:E; [|reflexivity].
    apply Ascii.eqb_eq in E. subst a. exfalso. apply (Hn 0). reflexivity.
Qed.

(** X6. The tokens spell the input.  For an input that is not empty and
    holds no NUL character: when the lexer has returned the tokens [ts],
    none of them [EOF], and the next request returns [EOF], the texts of
    [ts], concatenated in order, are the input, character for character.
    The lexer drops nothing and invents nothing. *)
Theorem tokens_spell_input (inp : string) (n : nat) (ts : list Token)
    (l1 l2 : t) (tok : Token) :
  inp <> "" ->
  noNul inp ->
  tokens n (Lexer.new inp) = Ok (ts, l1) ->
  Forall (fun t => tokenType t <> EOF) ts ->
  getNextToken l1 = Ok (tok, l2) ->
  tokenType tok = EOF ->
  joinText ts = inp.
Proof.
  intros Hne Hn Ht Hall Hg Heof.
  destruct (rest_new inp Hne Hn) as [Hs Hinp].
  destruct (tokens_rest n (Lexer.new inp) l1 ts Hn Hs Ht Hall) as (_ & _ & Hr).
  destruct (getNextToken_EOF_inv l1 l2 tok Hg Heof) as (Hc & _).
  unfold rest at 2 in Hr. rewrite Hc in Hr. simpl in Hr.
  rewrite ParserFacts.append_empty_r in Hr. congruence.
Qed.

Lemma tokens_spell_input_witness :
  joinText [mkToken "-" UNORDEREDLI; mkToken " " SPACE; mkToken "a1" STRING;
            mkToken nl NEWLINE; mkToken "**" BOLD; mkToken "b" STRING;
            mkToken "**" BOLD]
  = "- a1" ++ nl ++ "**b**".
Proof.
  pose (inp := "- a1" ++ nl ++ "**b**").
  pose (l1 := {| position := 8; input := inp; currentChar := Char NUL;
                 currentToken := mkToken "**" BOLD |}).
  pose (l2 := {| position := 8; input := inp; currentChar := Char NUL;
                 currentToken := eofToken |}).
  apply (tokens_spell_input inp 7 _ l1 l2 eofToken).
  - discriminate.
  - apply noNulb_sound. reflexivity.
  - reflexivity.
  - repeat constructor; discriminate.
  - reflexivity.
  - reflexivity.
Defined.

(** ** Lexing ends *)

Lemma supported_get (s : string) :
  supported s = true ->
  forall n c, String.get n s = Some c -> alnumClass c || hasCase c = true.
Proof.
  induction s as [|a s IH]; intros H [|n] c Hg; simpl in *; try discriminate;
    apply andb_true_iff in H; destruct H as [Ha Hs].
  - injection Hg as <-. exact Ha.
  - eapply IH; eassumption.
Qed.

Lemma getTextToken_loop_step (fuel : nat) (s : string) (l : t) :
  isAlphaNumeric (toStr (currentChar l)) = true ->
  getTextToken_loop (S fuel) s l
  = getTextToken_loop fuel (s ++ toStr (currentChar l)) (advance 1 l).
Proof. intros H. simpl. rewrite H. reflexivity. Qed.

Lemma getTextToken_loop_prefix (fuel : nat) :
  forall s l, exists w, fst (getTextToken_loop fuel s l) = s ++ w.
Proof.
  induction fuel as [|fuel IH]; intros s l; simpl.
  - exists "". rewrite ParserFacts.append_empty_r. reflexivity.
  - destruct (isAlphaNumeric (toStr (currentChar l))).
    + destruct (IH (s ++ toStr (currentChar l)) (advance 1 l)) as [w Hw].
      exists (toStr (currentChar l) ++ w). rewrite Hw. apply sappend_assoc.
    + exists "". rewrite ParserFacts.append_empty_r. reflexivity.
Qed.

Lemma getTextToken_nonempty (l : t) (c : ascii) :
  currentChar l = Char c -> alnumClass c = true ->
  tokenValue (fst (getTextToken l)) <> "".
Proof.
  intros Hc Hal. unfold getTextToken, textFuel.
  rewrite getTextToken_loop_step.
  2:{ rewrite Hc. simpl. rewrite Hal. reflexivity. }
  destruct (getTextToken_loop_prefix
              (S (Z.to_nat (len (input l) - position l)))
              ("" ++ toStr (currentChar l)) (advance 1 l)) as [w Hw].
  destruct (getTextToken_loop _ _ (advance 1 l)) as [s' l']. simpl in *.
  subst s'. rewrite Hc. discriminate.
Qed.

(** On a character of the alphabet, a returned token has a text that is
    not empty. *)
Lemma getNextToken_nonempty (l l' : t) (tok : Token) (c : ascii) :
  noNul (input l) -> onInput l ->
  currentChar l = Char c -> alnumClass c || hasCase c = true ->
  getNextToken l = Ok (tok, l') ->
  tokenValue tok <> "".
Proof.
  intros Hn Hon Hc Hsup H.
  assert (Hok : tokenOk tok = true).
  { pose proof H as H'. apply getNextToken_classify in H'.
    destruct H' as (l0 & H' & _). eapply classify_tokenOk, H'. }
  destruct (tokenType tok) eqn:Hty;
    try (unfold tokenOk in Hok; rewrite Hty in Hok;
         first [ discriminate Hok
               | apply String.eqb_eq in Hok; rewrite Hok; discriminate ]).
  (* a STRING token *)
  apply getNextToken_classify in H. destruct H as (l0 & H & _).
  unfold classify in H. rewrite Hc in H.
  assert (Htext : (tok, l0) = getTextToken l -> alnumClass c = true ->
                  tokenValue tok <> "").
  { intros E Hal. pose proof (getTextToken_nonempty l c Hc Hal) as Hx.
    rewrite <- E in Hx. exact Hx. }
  destruct (alnumClass c) eqn:Hal.
  - pose proof (alnumClass_default c Hal) as Hcase.
    unfold hasCase in Hcase. simpl in Hcase.
    repeat (apply orb_false_elim in Hcase; destruct Hcase as [?E Hcase]).
    rewrite E, E0, E1, E2, E3, E4, E5, E6 in H.
    injection H as H. auto.
  - exfalso. simpl in Hsup. unfold hasCase in Hsup. simpl in Hsup.
    repeat match type of H with
           | context [if ?b then _ else _] => destruct b eqn:?
           end;
      try solve [unfold invalidCharacterError in H; discriminate H];
      try solve [injection H as H1 _; rewrite <- H1 in Hty; discriminate Hty];
      try solve [ injection H as H; unfold getHeaderToken in H;
                  repeat match type of H with
                         | context [if ?b then _ else _] => destruct b
                         end;
                  injection H as H1 _; rewrite <- H1 in Hty; discriminate Hty ];
      try solve [ injection H as H; unfold getCodeToken in H;
                  destruct (_ && _); injection H as H1 _; rewrite <- H1 in Hty;
                  discriminate Hty ].
    repeat match goal with
           | Hx : Ascii.eqb c _ = false |- _ => rewrite Hx in Hsup; clear Hx
           end.
    discriminate Hsup.
Qed.

Lemma slen_app (a b : string) :
  String.length (a ++ b) = (String.length a + String.length b)%nat.
Proof. induction a as [|c a IH]; simpl; congruence. Qed.

Lemma lexing_ends (m : nat) :
  forall l : t,
    noNul (input l) -> supported (input l) = true -> settled l ->
    (String.length (rest l) <= m)%nat ->
    exists n : nat, (n <= m)%nat /\
      ((exists e, tokens (S n) l = Throw e) \/
       (exists ts l1 l2,
          tokens n l = Ok (ts, l1) /\
          Forall (fun tok => tokenType tok <> EOF) ts /\
          getNextToken l1 = Ok (eofToken, l2))).
Proof.
  induction m as [|m IH]; intros l Hn Hsup Hs Hlen.
  - (* nothing is left: the lexer is on the sentinel *)
    exists 0%nat. split; [lia|]. right.
    assert (Hsent : currentChar l = Char NUL).
    { destruct Hs as [Hon | Hsent]; [|exact Hsent]. exfalso.
      rewrite rest_onInput in Hlen by assumption.
      destruct (charAt_in_range _ _ (proj1 Hon)) as [c Hc].
      rewrite (dropS_get _ _ _ (charAt_get _ _ _ Hc)) in Hlen.
      simpl in Hlen. lia. }
    exists [], l. eexists. split; [reflexivity|]. split; [constructor|].
    apply getNextToken_at_sentinel, Hsent.
  - destruct Hs as [Hon | Hsent].
    2:{ exists 0%nat. split; [lia|]. right.
        exists [], l. eexists. split; [reflexivity|]. split; [constructor|].
        apply getNextToken_at_sentinel, Hsent. }
    destruct (getNextToken l) as [[tok l1]|e] eqn:Hg.
    2:{ exists 0%nat. split; [lia|]. left. exists e. simpl. rewrite Hg. reflexivity. }
    destruct (charAt_in_range _ _ (proj1 Hon)) as [c Hc].
    assert (Hcur : currentChar l = Char c) by (rewrite (proj2 Hon); exact Hc).
    assert (Hne : tokenType tok <> EOF).
    { intros Heof. destruct (getNextToken_EOF_inv _ _ _ Hg Heof) as (Hx & _).
      rewrite Hcur in Hx. injection Hx as ->. apply (Hn _ Hc). }
    destruct (getNextToken_rest l l1 tok Hn (or_introl Hon) Hg Hne) as [Hs1 Hr].
    assert (Htxt : tokenValue tok <> "").
    { apply (getNextToken_nonempty l l1 tok c Hn Hon Hcur); [|exact Hg].
      apply (supported_get _ Hsup _ _ (charAt_get _ _ _ Hc)). }
    pose proof (getNextToken_same_input l l1 tok Hg) as Hi.
    assert (Hlen1 : (String.length (rest l1) <= m)%nat).
    { rewrite Hr, slen_app in Hlen.
      destruct (tokenValue tok); [contradiction|]. simpl in Hlen. lia. }
    destruct (IH l1 ltac:(rewrite Hi; exact Hn) ltac:(rewrite Hi; exact Hsup)
                Hs1 Hlen1) as (n & Hnm & Hcase).
    exists (S n). split; [lia|].
    destruct Hcase as [[e He] | (ts & l2 & l3 & Ht & Hall & Hend)].
    + left. exists e. change (tokens (S (S n)) l) with
        (match getNextToken l with
         | Throw e => Throw e
         | Ok (tok, l') =>
             match tokens (S n) l' with
             | Ok (ts, l'') => Ok (tok :: ts, l'')
             | Throw e => Throw e
             end
         end).
      rewrite Hg, He. reflexivity.
    + right. exists (tok :: ts), l2, l3. split; [|split; [|exact Hend]].
      * simpl. rewrite Hg, Ht. reflexivity.
      * constructor; assumption.
Qed.

(** X7. Lexing ends.  On an input that is not empty, holds no NUL and is
    written in the alphabet of the dialect (alphanumeric characters and the
    characters that have a [case]), the lexer throws or reaches [EOF] after
    at most as many token requests as the input has characters: there are
    [n] tokens, none of them [EOF], with [n] at most the length of the
    input, and the request after them throws or returns [EOF]. *)
Theorem lexing_terminates (inp : string) :
  inp <> "" ->
  noNul inp ->
  supported inp = true ->
  exists n : nat, (n <= String.length inp)%nat /\
    ((exists e, tokens (S n) (Lexer.new inp) = Throw e) \/
     (exists ts l1 l2,
        tokens n (Lexer.new inp) = Ok (ts, l1) /\
        Forall (fun tok => tokenType tok <> EOF) ts /\
        getNextToken l1 = Ok (eofToken, l2))).
Proof.
  intros Hne Hn Hsup.
  apply (lexing_ends (String.length inp) (Lexer.new inp)); auto.
  - left. split; simpl; [|reflexivity]. unfold len.
    destruct inp; [contradiction|]. simpl String.length. lia.
  - unfold rest. simpl.
    destruct (isSentinel (charAt inp 0)); simpl; lia.
Qed.

Lemma lexing_terminates_witness :
  exists n : nat, (n <= 6)%nat /\
    ((exists e, tokens (S n) (Lexer.new "a *b c") = Throw e) \/
     (exists ts l1 l2,
        tokens n (Lexer.new "a *b c") = Ok (ts, l1) /\
        Forall (fun tok => tokenType tok <> EOF) ts /\
        getNextToken l1 = Ok (eofToken, l2))).
Proof.
  apply (lexing_terminates "a *b c").
  - discriminate.
  - apply noNulb_sound. reflexivity.
  - reflexivity.
Defined.

End LexerMore.

(** * The parser as a whole *)

Module ParserMore.
Import Parser ParserFacts.

#[local] Notation "x <- m ;; k" := (bind m (fun x => k))
  (at level 61, m at next level, right associativity).
#[local] Notation "m ;;; k" := (bind m (fun _ => k))
  (at level 61, right associativity).

(** ** A relation that every rule follows *)

Section Follows.

Variable R : t -> t -> Prop.
Hypothesis R_refl : forall p, R p p.
Hypothesis R_trans : forall p q r, R p q -> R q r -> R p r.
Hypothesis R_eat :
  forall p p', eatable (tokenType (currentToken p)) = true ->
    Parser.new (lexer p) = Ok p' -> R p p'.

Lemma follows_ret {A} (a : A) : follows R (ret a).
Proof. intros p b p' H. injection H as _ <-. apply R_refl. Qed.

Lemma follows_current : follows R current.
Proof. intros p b p' H. injection H as _ <-. apply R_refl. Qed.

Lemma follows_bind {A B} (m : M A) (k : A -> M B) :
  follows R m -> (forall a, follows R (k a)) -> follows R (bind m k).
Proof.
  intros Hm Hk p b p' H. apply bind_Return in H.
  destruct H as (a & q & H1 & H2).
  eapply R_trans; [eapply Hm | eapply Hk]; eassumption.
Qed.

Lemma follows_eat (ty : TokenType) : eatable ty = true -> follows R (eat ty).
Proof.
  intros Hty p u p' H. apply eat_Return in H. destruct H as [<- Hn].
  apply R_eat; assumption.
Qed.

Lemma follows_never {A} (m : M A) :
  (forall p a p', m p <> Return a p') -> follows R m.
Proof. intros Hm p a p' H. exfalso. eapply Hm, H. Qed.

Lemma follows_invalidTokenError {A} : follows R (@invalidTokenError A).
Proof. apply follows_never. discriminate. Qed.

Lemma follows_outOfFuel {A} : follows R (@outOfFuel A).
Proof. apply follows_never. discriminate. Qed.

Ltac follow_step :=
  match goal with
  | |- follows _ (bind _ _) => apply follows_bind; [|intros ?]
  | |- follows _ (ret _) => apply follows_ret
  | |- follows _ current => apply follows_current
  | |- follows _ (eat _) => apply follows_eat; reflexivity
  | |- follows _ invalidTokenError => apply follows_invalidTokenError
  | |- follows _ outOfFuel => apply follows_outOfFuel
  | H : forall _, follows _ _ |- follows _ _ => apply H
  | H : follows _ _ |- follows _ _ => exact H
  | |- follows _ (if ?b then _ else _) =>
      match b with
      | context [tokenType ?tok] =>
          destruct (tokenType tok); cbn [includes existsb TokenType_eqb orb negb]
      end
  | |- follows _ (match tokenType ?tok with _ => _ end) =>
      destruct (tokenType tok); cbn [includes existsb TokenType_eqb orb negb]
  | |- follows _ (match headers (tokenType ?tok) with _ => _ end) =>
      destruct (tokenType tok); cbn [headers]
  end.

Ltac follow := repeat follow_step.

Lemma allCharsStmt_loop_follows (fuel : nat) :
  forall v, follows R (allCharsStmt_loop fuel v).
Proof.
  induction fuel as [|fuel IH]; intros v; cbn [allCharsStmt_loop]; follow.
Qed.

Lemma allCharsStmt_follows (fuel : nat) : follows R (allCharsStmt fuel).
Proof.
  unfold allCharsStmt. pose proof (allCharsStmt_loop_follows fuel) as H. follow.
Qed.

Lemma textStmt_follows (fuel : nat) : follows R (textStmt fuel).
Proof.
  induction fuel as [|fuel IH]; cbn [textStmt]; follow.
Qed.

Lemma emphasis_follows (fuel : nat) :
  follows R (boldStmt fuel) /\ follows R (italicStmt fuel) /\
  (forall ns, follows R (innerItalicStmt fuel ns)) /\
  (forall ns, follows R (innerBoldStmt fuel ns)).
Proof.
  induction fuel as [|fuel (IHb & IHi & IHii & IHib)].
  - split; [|split; [|split]]; try (intros ns); apply follows_outOfFuel.
  - pose proof (allCharsStmt_follows fuel) as Hall.
    split; [|split; [|split]].
    + cbn [boldStmt]. follow.
    + cbn [italicStmt]. follow.
    + intros ns. cbn [innerItalicStmt]. follow.
    + intros ns. cbn [innerBoldStmt]. follow.
Qed.

Lemma monoSpaceStmt_follows (fuel : nat) : follows R (monoSpaceStmt fuel).
Proof.
  unfold monoSpaceStmt. pose proof (allCharsStmt_follows fuel) as H. follow.
Qed.

Lemma codeStmt_follows (fuel : nat) : follows R (codeStmt fuel).
Proof.
  unfold codeStmt. pose proof (allCharsStmt_follows fuel) as H. follow.
Qed.

Lemma headerStmt_follows (fuel : nat) : follows R (headerStmt fuel).
Proof.
  unfold headerStmt. pose proof (allCharsStmt_follows fuel) as H. follow.
Qed.

Lemma innerUnorederedLiStmt_follows (fuel : nat) :
  follows R (innerUnorederedLiStmt fuel).
Proof.
  unfold innerUnorederedLiStmt.
  pose proof (allCharsStmt_follows fuel) as H1.
  pose proof (proj1 (emphasis_follows fuel)) as H2.
  pose proof (proj1 (proj2 (emphasis_follows fuel))) as H3.
  pose proof (monoSpaceStmt_follows fuel) as H4.
  pose proof (headerStmt_follows fuel) as H5.
  follow.
Qed.

Lemma unorderedListStmt_loop_follows (fuel : nat) :
  forall items, follows R (unorderedListStmt_loop fuel items).
Proof.
  induction fuel as [|fuel IH]; intros items; cbn [unorderedListStmt_loop];
    [apply follows_outOfFuel|].
  pose proof (innerUnorederedLiStmt_follows fuel) as H. follow.
Qed.

Lemma unorderedListStmt_follows (fuel : nat) : follows R (unorderedListStmt fuel).
Proof.
  unfold unorderedListStmt. pose proof (unorderedListStmt_loop_follows fuel) as H.
  follow.
Qed.

Lemma formatStmt_follows (fuel : nat) : follows R (formatStmt fuel).
Proof.
  unfold formatStmt.
  pose proof (allCharsStmt_follows fuel) as H1.
  pose proof (proj1 (emphasis_follows fuel)) as H2.
  pose proof (proj1 (proj2 (emphasis_follows fuel))) as H3.
  pose proof (monoSpaceStmt_follows fuel) as H4.
  pose proof (headerStmt_follows fuel) as H5.
  pose proof (textStmt_follows fuel) as H6.
  pose proof (codeStmt_follows fuel) as H7.
  pose proof (unorderedListStmt_follows fuel) as H8.
  apply follows_bind; [apply follows_current|]. intros tok.
  destruct (tokenType tok); cbv beta iota; simpl; follow.
Qed.

Lemma rootStmt_loop_follows (fuel : nat) :
  forall nodes, follows R (rootStmt_loop fuel nodes).
Proof.
  induction fuel as [|fuel IH]; intros nodes; cbn [rootStmt_loop];
    [apply follows_outOfFuel|].
  pose proof (formatStmt_follows fuel) as H. follow.
Qed.

Lemma rootStmt_follows (fuel : nat) : follows R (rootStmt fuel).
Proof.
  unfold rootStmt. pose proof (rootStmt_loop_follows fuel) as H. follow.
Qed.

End Follows.

(** ** The lexer during a parse *)

Lemma new_getNextToken (l : Lexer.t) (p : t) :
  Parser.new l = Ok p ->
  Lexer.getNextToken l = Ok (currentToken p, lexer p).
Proof.
  unfold Parser.new.
  destruct (Lexer.getNextToken l) as [[tok l']|e]; [|discriminate].
  intros H. injection H as <-. reflexivity.
Qed.

Lemma keepsLexer_refl (p : t) : keepsLexer p p.
Proof.
  unfold keepsLexer. split; [reflexivity|]. split; [lia|]. split; auto.
Qed.

Lemma keepsLexer_trans (p q r : t) :
  keepsLexer p q -> keepsLexer q r -> keepsLexer p r.
Proof.
  intros (Hi & Hp & Hs & Hy) (Hi' & Hp' & Hs' & Hy').
  unfold keepsLexer. split; [congruence|]. split; [lia|]. split; auto.
Qed.

Lemma keepsLexer_new (p p' : t) :
  Parser.new (lexer p) = Ok p' -> keepsLexer p p'.
Proof.
  intros H. apply new_getNextToken in H.
  apply LexerMore.getNextToken_classify in H. destruct H as (l0 & Hc & Hl).
  apply LexerMore.classify_moved in Hc. destruct Hc as (Hi & _ & Hp & _ & Hs).
  unfold keepsLexer, inSync. rewrite Hl. simpl.
  split; [exact Hi|]. split; [exact Hp|]. split; [|reflexivity].
  intros Hin. exact (Hs Hin).
Qed.

(** X8. A parse keeps the lexer in order.  When [rootStmt] returns, the
    input of the lexer is what it was, its position has not decreased, it
    is still in step with the input if it was, and the parser's lookahead
    is still the lexer's last token if it was. *)
Theorem rootStmt_keeps_lexer (fuel : nat) (p p' : t) (root : ASTNode) :
  rootStmt fuel p = Return root p' ->
  Lexer.input (lexer p') = Lexer.input (lexer p) /\
  Lexer.position (lexer p) <= Lexer.position (lexer p') /\
  (inStep (lexer p) -> inStep (lexer p')) /\
  (inSync p -> inSync p').
Proof.
  intros H.
  apply (rootStmt_follows keepsLexer keepsLexer_refl keepsLexer_trans
           (fun p p' _ => keepsLexer_new p p') fuel p root p' H).
Qed.

Lemma rootStmt_keeps_lexer_witness :
  let p' := {| lexer := {| Lexer.position := 2; Lexer.input := "a b";
                           Lexer.currentChar := Char NUL;
                           Lexer.currentToken := eofToken |};
               currentToken := eofToken |} in
  Lexer.input (lexer p') = Lexer.input (lexer (parserOn "a b")) /\
  Lexer.position (lexer (parserOn "a b")) <= Lexer.position (lexer p') /\
  (inStep (lexer (parserOn "a b")) -> inStep (lexer p')) /\
  (inSync (parserOn "a b") -> inSync p').
Proof.
  intros p'.
  exact (rootStmt_keeps_lexer 5 (parserOn "a b") p'
           (rootNode [textNode "a"; textNode " b"]) eq_refl).
Defined.

(** ** What a returned document has consumed *)

Lemma path_app (p q r : t) (ts us : list Token) :
  path p ts q -> path q us r -> path p (ts ++ us) r.
Proof.
  induction 1 as [p | p p1 q ts He Hn Hp IH]; intros Hq; simpl; [exact Hq|].
  eapply path_cons; eauto.
Qed.

Lemma path_eatable (p p' : t) (ts : list Token) :
  path p ts p' -> Forall (fun tok => eatable (tokenType tok) = true) ts.
Proof. induction 1; constructor; assumption. Qed.

Lemma path_tokens (p p' : t) (ts : list Token) :
  path p ts p' ->
  forall l, Lexer.getNextToken l = Ok (currentToken p, lexer p) ->
    exists l1, Lexer.tokens (length ts) l = Ok (ts, l1) /\
               Lexer.getNextToken l1 = Ok (currentToken p', lexer p').
Proof.
  induction 1 as [p | p p1 p' ts He Hn Hp IH]; intros l Hl.
  - exists l. split; [reflexivity | exact Hl].
  - destruct (IH (lexer p) (new_getNextToken _ _ Hn)) as (l1 & Ht & Hg).
    exists l1. split; [|exact Hg].
    cbn [length Lexer.tokens]. rewrite Hl, Ht. reflexivity.
Qed.

Lemma rootStmt_loop_ends_on_EOF (fuel : nat) :
  forall nodes p nodes' p',
    rootStmt_loop fuel nodes p = Return nodes' p' ->
    tokenType (currentToken p') = EOF.
Proof.
  induction fuel as [|fuel IH]; intros nodes p nodes' p' H; [discriminate|].
  cbn [rootStmt_loop] in H. inv_M.
  destruct (TokenType_eqb (tokenType (currentToken p)) EOF) eqn:E; simpl in H.
  - inv_M. apply TokenType_eqb_eq, E.
  - inv_M. eapply IH; eassumption.
Qed.

(** X9. A returned document has consumed its whole input.  When
    [parse_document] returns a document, the lexer, run on the same input,
    returns tokens [ts] and then [EOF], without error; every token of [ts]
    is of a kind the grammar consumes (a [LINEBREAK] token, ["---"], is
    not: an input in which the parser meets one is never accepted); and
    when the input is not empty and holds no NUL character, the texts of
    [ts] spell it. *)
Theorem document_consumes_input (fuel : nat) (inp : string) (root : ASTNode) :
  parse_document fuel inp = Document root ->
  exists (ts : list Token) (l1 l2 : Lexer.t),
    Lexer.tokens (length ts) (Lexer.new inp) = Ok (ts, l1) /\
    Lexer.getNextToken l1 = Ok (eofToken, l2) /\
    Forall (fun tok => eatable (tokenType tok) = true) ts /\
    (inp <> "" -> noNul inp -> joinText ts = inp).
Proof.
  unfold parse_document.
  destruct (Parser.new (Lexer.new inp)) as [p0|e] eqn:Hnew; [|discriminate].
  destruct (rootStmt fuel p0) as [n p'| |] eqn:Hroot; try discriminate.
  intros _.
  assert (Hpath : exists ts, path p0 ts p').
  { apply (rootStmt_follows (fun p q => exists ts, path p ts q)) in Hroot; auto.
    - intros p. exists []. constructor.
    - intros p q r [ts Hp] [us Hq]. exists (ts ++ us)%list. eapply path_app; eauto.
    - intros p q He Hn. exists [currentToken p].
      eapply path_cons; eauto. constructor. }
  destruct Hpath as [ts Hpath].
  assert (Heof : tokenType (currentToken p') = EOF).
  { unfold rootStmt in Hroot. inv_M. eapply rootStmt_loop_ends_on_EOF; eassumption. }
  destruct (path_tokens p0 p' ts Hpath _ (new_getNextToken _ _ Hnew))
    as (l1 & Ht & Hg).
  destruct (LexerFacts.getNextToken_EOF_inv _ _ _ Hg Heof) as (_ & Htok & _).
  rewrite Htok in Hg.
  pose proof (path_eatable _ _ _ Hpath) as Hall.
  exists ts, l1, (lexer p'). repeat split; auto.
  intros Hne Hnul.
  destruct (LexerMore.rest_new inp Hne Hnul) as [Hs Hinp].
  destruct (LexerMore.tokens_rest (length ts) (Lexer.new inp) l1 ts Hnul Hs Ht)
    as (_ & _ & Hr).
  { eapply Forall_impl; [|exact Hall].
    intros tok H E. cbv beta in H. rewrite E in H. discriminate. }
  destruct (LexerFacts.getNextToken_EOF_inv _ _ _ Hg eq_refl) as (Hc & _).
  unfold rest at 2 in Hr. rewrite Hc in Hr. simpl in Hr.
  rewrite append_empty_r in Hr. congruence.
Qed.

Lemma document_consumes_input_witness :
  exists (ts : list Token) (l1 l2 : Lexer.t),
    Lexer.tokens (length ts) (Lexer.new "## a_b_") = Ok (ts, l1) /\
    Lexer.getNextToken l1 = Ok (eofToken, l2) /\
    Forall (fun tok => eatable (tokenType tok) = true) ts /\
    ("## a_b_" <> "" -> noNul "## a_b_" -> joinText ts = "## a_b_").
Proof.
  exact (document_consumes_input 8 "## a_b_"
           (rootNode [Node Header2 (mkToken "##" HEADER2) None [textNode "a"];
                      Node Italic (mkToken "_" ITALIC) None [textNode "b"]])
           eq_refl).
Defined.

(** ** Well-formed documents *)

Lemma new_tokenOk (l : Lexer.t) (p : t) :
  Parser.new l = Ok p -> tokenOk (currentToken p) = true.
Proof.
  intros H. apply new_getNextToken in H.
  apply LexerMore.getNextToken_classify in H. destruct H as (l0 & H & _).
  eapply LexerMore.classify_tokenOk, H.
Qed.

Lemma eat_tokenOk (ty : TokenType) (p p' : t) (u : unit) :
  eat ty p = Return u p' ->
  tokenType (currentToken p) = ty /\ tokenOk (currentToken p') = true.
Proof.
  intros H. apply eat_Return in H. destruct H as [H1 H2].
  split; [exact H1 | eapply new_tokenOk, H2].
Qed.

Lemma keepsTokenOk_refl (p : t) : keepsTokenOk p p.
Proof. intros H. exact H. Qed.

Lemma keepsTokenOk_trans (p q r : t) :
  keepsTokenOk p q -> keepsTokenOk q r -> keepsTokenOk p r.
Proof. unfold keepsTokenOk. auto. Qed.

Lemma keepsTokenOk_new (p p' : t) :
  eatable (tokenType (currentToken p)) = true ->
  Parser.new (lexer p) = Ok p' -> keepsTokenOk p p'.
Proof. intros _ H _. eapply new_tokenOk, H. Qed.

Lemma allClass_allText (s : string) : allClass s = true -> allText s = true.
Proof.
  induction s as [|c s IH]; simpl; [reflexivity|]. intros H.
  apply andb_true_iff in H. destruct H as [Hc Hs].
  unfold textClass. rewrite Hc, IH; auto.
Qed.

Lemma allText_append (a b : string) :
  allText a = true -> allText b = true -> allText (a ++ b) = true.
Proof.
  induction a as [|c a IH]; simpl; intros Ha Hb; [exact Hb|].
  apply andb_true_iff in Ha. destruct Ha as [Hc Ha].
  rewrite Hc, IH; auto.
Qed.

Lemma isText_allText (tok : Token) :
  isText tok = true -> tokenOk tok = true -> allText (tokenValue tok) = true.
Proof.
  destruct tok as [v ty]. unfold isText, tokenOk. simpl.
  destruct ty; try discriminate; intros _ H.
  - apply allClass_allText, H.
  - apply String.eqb_eq in H. subst v. reflexivity.
Qed.

Lemma textRun_allText (p p' : t) (ts : list Token) :
  textRun p ts p' -> tokenOk (currentToken p) = true ->
  allText (joinText ts) = true.
Proof.
  induction 1 as [p Hp | p p1 p' ts Hp Hn Hrun IH]; intros Hok; [reflexivity|].
  simpl. apply allText_append; [apply isText_allText; assumption|].
  apply IH. eapply new_tokenOk, Hn.
Qed.

Lemma allCharsStmt_nodeOk (fuel : nat) (p p' : t) (n : ASTNode) :
  tokenOk (currentToken p) = true ->
  allCharsStmt fuel p = Return n p' ->
  nodeType n = StringNode /\ nodeOk n = true.
Proof.
  intros Hok H. apply allCharsStmt_inv in H. destruct H as (ts & Hrun & ->).
  split; [reflexivity|]. simpl.
  rewrite (textRun_allText _ _ _ Hrun Hok). reflexivity.
Qed.

Ltac token_is H Hty :=
  match type of H with
  | tokenOk ?tok = true =>
      destruct tok as [?v ?ty]; simpl in Hty; subst;
      unfold tokenOk in H; simpl in H; apply String.eqb_eq in H; subst;
      reflexivity
  end.

Lemma textStmt_nodeOk (fuel : nat) (p p' : t) (n : ASTNode) :
  tokenOk (currentToken p) = true ->
  textStmt fuel p = Return n p' ->
  kindOk RootNode (nodeType n) = true /\ nodeOk n = true.
Proof.
  intros Hok H. destruct fuel as [|fuel]; [discriminate|].
  cbn [textStmt] in H. inv_M.
  destruct (tokenType (currentToken p)) eqn:Hty; inv_M;
    try (split; reflexivity).
  - split; [reflexivity|]. simpl. rewrite Hty. simpl.
    rewrite isText_allText; auto. unfold isText. rewrite Hty. reflexivity.
  - split; [reflexivity|]. simpl. rewrite !andb_true_r. token_is Hok Hty.
Qed.

Lemma kidsOk_snoc (ty : NodeType) (ns : list ASTNode) (n : ASTNode) :
  kidsOk ty ns = true ->
  kindOk ty (nodeType n) = true -> nodeOk n = true ->
  kidsOk ty (ns ++ [n]) = true.
Proof.
  intros Hns Hk Hn. unfold kidsOk. rewrite forallb_app. fold (kidsOk ty ns).
  rewrite Hns. simpl. rewrite Hk, Hn. reflexivity.
Qed.

Lemma token_fixed (tok : Token) (v : string) (ty : TokenType) :
  tokenOk tok = true -> tokenType tok = ty ->
  tokenOk (mkToken v ty) = true -> ty <> STRING ->
  Token_eqb tok (mkToken v ty) = true.
Proof.
  destruct tok as [v0 ty0]. simpl. intros H <- Hv Hne.
  unfold Token_eqb. simpl. rewrite TokenType_eqb_refl, andb_true_r.
  unfold tokenOk in *. simpl in *.
  destruct ty0; try congruence;
    apply String.eqb_eq in H; apply String.eqb_eq in Hv; subst;
    apply String.eqb_refl.
Qed.

Lemma allCharsStmt_tok (fuel : nat) (p p' : t) (n : ASTNode) :
  allCharsStmt fuel p = Return n p' -> keepsTokenOk p p'.
Proof.
  apply (allCharsStmt_follows keepsTokenOk keepsTokenOk_refl keepsTokenOk_trans
           keepsTokenOk_new).
Qed.

Lemma boldStmt_tok (fuel : nat) (p p' : t) (n : ASTNode) :
  boldStmt fuel p = Return n p' -> keepsTokenOk p p'.
Proof.
  apply (emphasis_follows keepsTokenOk keepsTokenOk_refl keepsTokenOk_trans
           keepsTokenOk_new).
Qed.

Lemma italicStmt_tok (fuel : nat) (p p' : t) (n : ASTNode) :
  italicStmt fuel p = Return n p' -> keepsTokenOk p p'.
Proof.
  apply (emphasis_follows keepsTokenOk keepsTokenOk_refl keepsTokenOk_trans
           keepsTokenOk_new).
Qed.

Lemma innerUnorederedLiStmt_tok (fuel : nat) (p p' : t) (n : ASTNode) :
  innerUnorederedLiStmt fuel p = Return n p' -> keepsTokenOk p p'.
Proof.
  apply (innerUnorederedLiStmt_follows keepsTokenOk keepsTokenOk_refl
           keepsTokenOk_trans keepsTokenOk_new).
Qed.

Lemma formatStmt_tok (fuel : nat) (p p' : t) (n : ASTNode) :
  formatStmt fuel p = Return n p' -> keepsTokenOk p p'.
Proof.
  apply (formatStmt_follows keepsTokenOk keepsTokenOk_refl keepsTokenOk_trans
           keepsTokenOk_new).
Qed.

(** Reads off each [eat] of the context what it says of its two states. *)
Ltac eats :=
  repeat match goal with
         | He : eat _ _ = Return _ _ |- _ =>
             apply eat_tokenOk in He; destruct He as [? ?]
         end.

Lemma emphasis_nodeOk (f : nat) :
  (forall p n p', tokenOk (currentToken p) = true ->
     boldStmt f p = Return n p' -> nodeType n = Bold /\ nodeOk n = true) /\
  (forall p n p', tokenOk (currentToken p) = true ->
     italicStmt f p = Return n p' -> nodeType n = Italic /\ nodeOk n = true) /\
  (forall ns p ns' p', tokenOk (currentToken p) = true ->
     innerItalicStmt f ns p = Return ns' p' ->
     kidsOk Italic ns = true -> kidsOk Italic ns' = true) /\
  (forall ns p ns' p', tokenOk (currentToken p) = true ->
     innerBoldStmt f ns p = Return ns' p' ->
     kidsOk Bold ns = true -> kidsOk Bold ns' = true).
Proof.
  induction f as [|f (IHb & IHi & IHii & IHib)].
  - repeat split; intros; discriminate.
  - split; [|split; [|split]].
    + intros p n p' Hok H. cbn [boldStmt] in H. inv_M. eats.
      split; [reflexivity|]. cbn [nodeOk arityOk langOk nodeTokenOk].
      rewrite (token_fixed (currentToken p) "**" BOLD) by
        (assumption || reflexivity || discriminate).
      match goal with
      | Hin : innerBoldStmt _ _ _ = Return _ _ |- _ =>
          apply IHib in Hin; [| assumption | reflexivity];
          unfold kidsOk in Hin; rewrite Hin; reflexivity
      end.
    + intros p n p' Hok H. cbn [italicStmt] in H. inv_M. eats.
      split; [reflexivity|]. cbn [nodeOk arityOk langOk nodeTokenOk].
      rewrite (token_fixed (currentToken p) "_" ITALIC) by
        (assumption || reflexivity || discriminate).
      match goal with
      | Hin : innerItalicStmt _ _ _ = Return _ _ |- _ =>
          apply IHii in Hin; [| assumption | reflexivity];
          unfold kidsOk in Hin; rewrite Hin; reflexivity
      end.
    + intros ns p ns' p' Hok H Hns. cbn [innerItalicStmt] in H. inv_M.
      destruct (includes [BOLD; STRING] (tokenType (currentToken p))) eqn:E;
        [|inv_M; exact Hns].
      destruct (tokenType (currentToken p)); try discriminate E; inv_M.
      * match goal with
        | Hn : allCharsStmt _ _ = Return _ _ |- _ =>
            pose proof (allCharsStmt_tok _ _ _ _ Hn Hok);
            destruct (allCharsStmt_nodeOk _ _ _ _ Hok Hn) as [Hk Hn']
        end.
        eapply IHii; [| eassumption |]; [assumption|].
        apply kidsOk_snoc; auto. rewrite Hk. reflexivity.
      * match goal with
        | Hn : boldStmt _ _ = Return _ _ |- _ =>
            pose proof (boldStmt_tok _ _ _ _ Hn Hok);
            destruct (IHb _ _ _ Hok Hn) as [Hk Hn']
        end.
        eapply IHii; [| eassumption |]; [assumption|].
        apply kidsOk_snoc; auto. rewrite Hk. reflexivity.
    + intros ns p ns' p' Hok H Hns. cbn [innerBoldStmt] in H. inv_M.
      destruct (includes [ITALIC; STRING] (tokenType (currentToken p))) eqn:E;
        [|inv_M; exact Hns].
      destruct (tokenType (currentToken p)); try discriminate E; inv_M.
      * match goal with
        | Hn : allCharsStmt _ _ = Return _ _ |- _ =>
            pose proof (allCharsStmt_tok _ _ _ _ Hn Hok);
            destruct (allCharsStmt_nodeOk _ _ _ _ Hok Hn) as [Hk Hn']
        end.
        eapply IHib; [| eassumption |]; [assumption|].
        apply kidsOk_snoc; auto. rewrite Hk. reflexivity.
      * match goal with
        | Hn : italicStmt _ _ = Return _ _ |- _ =>
            pose proof (italicStmt_tok _ _ _ _ Hn Hok);
            destruct (IHi _ _ _ Hok Hn) as [Hk Hn']
        end.
        eapply IHib; [| eassumption |]; [assumption|].
        apply kidsOk_snoc; auto. rewrite Hk. reflexivity.
Qed.

Lemma boldStmt_nodeOk (f : nat) (p p' : t) (n : ASTNode) :
  tokenOk (currentToken p) = true ->
  boldStmt f p = Return n p' -> nodeType n = Bold /\ nodeOk n = true.
Proof. apply emphasis_nodeOk. Qed.

Lemma italicStmt_nodeOk (f : nat) (p p' : t) (n : ASTNode) :
  tokenOk (currentToken p) = true ->
  italicStmt f p = Return n p' -> nodeType n = Italic /\ nodeOk n = true.
Proof. apply emphasis_nodeOk. Qed.

(** A node with the single child that [allCharsStmt] returned. *)
Ltac one_text_child :=
  match goal with
  | Hn : allCharsStmt _ ?q = Return ?c _, Hq : tokenOk (currentToken ?q) = true
    |- _ =>
      let Hk := fresh "Hk" in
      let Hc := fresh "Hc" in
      destruct (allCharsStmt_nodeOk _ _ _ _ Hq Hn) as [Hk Hc];
      cbn [nodeOk arityOk langOk nodeTokenOk length forallb Nat.eqb kindOk];
      rewrite Hk, Hc
  end.

Lemma monoSpaceStmt_nodeOk (f : nat) (p p' : t) (n : ASTNode) :
  tokenOk (currentToken p) = true ->
  monoSpaceStmt f p = Return n p' ->
  nodeType n = Monospace /\ nodeOk n = true.
Proof.
  intros Hok H. unfold monoSpaceStmt in H. inv_M. eats.
  split; [reflexivity|]. one_text_child.
  rewrite (token_fixed (currentToken p) "`" MONOSPACE) by
    (assumption || reflexivity || discriminate).
  reflexivity.
Qed.

Lemma codeStmt_nodeOk (f : nat) (p p' : t) (n : ASTNode) :
  tokenOk (currentToken p) = true ->
  codeStmt f p = Return n p' ->
  nodeType n = Code /\ nodeOk n = true.
Proof.
  intros Hok H. unfold codeStmt in H. inv_M. eats.
  split; [reflexivity|]. one_text_child.
  rewrite (token_fixed (currentToken p) "```" CODE) by
    (assumption || reflexivity || discriminate).
  match goal with
  | Hl : tokenType (currentToken ?q) = STRING,
    Hq : tokenOk (currentToken ?q) = true |- _ =>
      unfold tokenOk in Hq; rewrite Hl in Hq; rewrite Hq
  end.
  reflexivity.
Qed.

Lemma headerStmt_nodeOk (f : nat) (p p' : t) (n : ASTNode) :
  tokenOk (currentToken p) = true ->
  headerStmt f p = Return n p' ->
  kindOk UnorderedListItem (nodeType n) = true /\
  kindOk RootNode (nodeType n) = true /\ nodeOk n = true.
Proof.
  intros Hok H. unfold headerStmt in H. inv_M.
  destruct (tokenType (currentToken p)) eqn:Hty; cbn [headers] in H; inv_M; eats;
    (split; [reflexivity|]); (split; [reflexivity|]); one_text_child.
  - rewrite (token_fixed (currentToken p) "#" HEADER1) by
      (assumption || reflexivity || discriminate). reflexivity.
  - rewrite (token_fixed (currentToken p) "##" HEADER2) by
      (assumption || reflexivity || discriminate). reflexivity.
  - rewrite (token_fixed (currentToken p) "###" HEADER3) by
      (assumption || reflexivity || discriminate). reflexivity.
  - rewrite (token_fixed (currentToken p) "####" HEADER4) by
      (assumption || reflexivity || discriminate). reflexivity.
  - rewrite (token_fixed (currentToken p) "#####" HEADER5) by
      (assumption || reflexivity || discriminate). reflexivity.
Qed.

Lemma innerUnorederedLiStmt_nodeOk (f : nat) (p p' : t) (n : ASTNode) :
  tokenOk (currentToken p) = true ->
  innerUnorederedLiStmt f p = Return n p' ->
  nodeType n = UnorderedListItem /\ nodeOk n = true.
Proof.
  intros Hok H. unfold innerUnorederedLiStmt in H. inv_M. eats.
  split; [reflexivity|].
  cbn [nodeOk arityOk langOk nodeTokenOk length forallb Nat.eqb].
  rewrite (token_fixed (currentToken p) "-" UNORDEREDLI) by
    (assumption || reflexivity || discriminate).
  match goal with
  | Hc : (match tokenType (currentToken ?q) with _ => _ end) _ = Return ?c _,
    Hq : tokenOk (currentToken ?q) = true |- _ =>
      assert (Hkid : kindOk UnorderedListItem (nodeType c) = true /\
                     nodeOk c = true);
      [ destruct (tokenType (currentToken q));
        first [ destruct (allCharsStmt_nodeOk _ _ _ _ Hq Hc) as [-> ?]
              | destruct (boldStmt_nodeOk _ _ _ _ Hq Hc) as [-> ?]
              | destruct (italicStmt_nodeOk _ _ _ _ Hq Hc) as [-> ?]
              | destruct (monoSpaceStmt_nodeOk _ _ _ _ Hq Hc) as [-> ?]
              | destruct (headerStmt_nodeOk _ _ _ _ Hq Hc) as (? & _ & ?) ];
        auto
      | destruct Hkid as [-> ->]; reflexivity ]
  end.
Qed.

Lemma unorderedListStmt_loop_nodeOk (f : nat) :
  forall items p items' p',
    tokenOk (currentToken p) = true ->
    unorderedListStmt_loop f items p = Return items' p' ->
    kidsOk UnorderedListRoot items = true ->
    kidsOk UnorderedListRoot items' = true.
Proof.
  induction f as [|f IH]; intros items p items' p' Hok H Hitems; [discriminate|].
  cbn [unorderedListStmt_loop] in H. inv_M.
  destruct (TokenType_eqb (tokenType (currentToken p)) UNORDEREDLI); inv_M;
    [|exact Hitems].
  match goal with
  | Hn : innerUnorederedLiStmt _ _ = Return _ _ |- _ =>
      pose proof (innerUnorederedLiStmt_tok _ _ _ _ Hn Hok);
      destruct (innerUnorederedLiStmt_nodeOk _ _ _ _ Hok Hn) as [Hk Hn']
  end.
  eapply IH; [| eassumption |]; [assumption|].
  apply kidsOk_snoc; auto. rewrite Hk. reflexivity.
Qed.

Lemma unorderedListStmt_nodeOk (f : nat) (p p' : t) (n : ASTNode) :
  tokenOk (currentToken p) = true ->
  unorderedListStmt f p = Return n p' ->
  nodeType n = UnorderedListRoot /\ nodeOk n = true.
Proof.
  intros Hok H. unfold unorderedListStmt in H. inv_M.
  split; [reflexivity|]. cbn [nodeOk arityOk langOk nodeTokenOk].
  match goal with
  | Hl : unorderedListStmt_loop _ _ _ = Return _ _ |- _ =>
      apply unorderedListStmt_loop_nodeOk in Hl; [| assumption | reflexivity];
      unfold kidsOk in Hl; rewrite Hl; reflexivity
  end.
Qed.

(** Entered on a token that is not [EOF], [formatStmt] returns a node of a
    top-level kind (never the [Void] node of its [EOF] branch). *)
Lemma formatStmt_nodeOk (f : nat) (p p' : t) (n : ASTNode) :
  tokenOk (currentToken p) = true ->
  tokenType (currentToken p) <> EOF ->
  formatStmt f p = Return n p' ->
  kindOk RootNode (nodeType n) = true /\ nodeOk n = true.
Proof.
  intros Hok Hne H. unfold formatStmt in H. inv_M.
  destruct (tokenType (currentToken p)); try congruence;
    cbv beta iota in H; simpl in H; inv_M;
    first [ apply (textStmt_nodeOk _ _ _ _ Hok H)
          | destruct (allCharsStmt_nodeOk _ _ _ _ Hok H) as [-> ?]; auto
          | destruct (boldStmt_nodeOk _ _ _ _ Hok H) as [-> ?]; auto
          | destruct (italicStmt_nodeOk _ _ _ _ Hok H) as [-> ?]; auto
          | destruct (monoSpaceStmt_nodeOk _ _ _ _ Hok H) as [-> ?]; auto
          | destruct (codeStmt_nodeOk _ _ _ _ Hok H) as [-> ?]; auto
          | destruct (unorderedListStmt_nodeOk _ _ _ _ Hok H) as [-> ?]; auto
          | destruct (headerStmt_nodeOk _ _ _ _ Hok H) as (_ & ? & ?); auto ].
Qed.

Lemma rootStmt_loop_nodeOk (f : nat) :
  forall nodes p nodes' p',
    tokenOk (currentToken p) = true ->
    rootStmt_loop f nodes p = Return nodes' p' ->
    kidsOk RootNode nodes = true ->
    kidsOk RootNode nodes' = true.
Proof.
  induction f as [|f IH]; intros nodes p nodes' p' Hok H Hnodes; [discriminate|].
  cbn [rootStmt_loop] in H. inv_M.
  destruct (TokenType_eqb (tokenType (currentToken p)) EOF) eqn:E; simpl in H;
    inv_M; [exact Hnodes|].
  apply TokenType_eqb_neq in E.
  match goal with
  | Hn : formatStmt _ _ = Return _ _ |- _ =>
      pose proof (formatStmt_tok _ _ _ _ Hn Hok);
      destruct (formatStmt_nodeOk _ _ _ _ Hok E Hn) as [Hk Hn']
  end.
  eapply IH; [| eassumption |]; [assumption|].
  apply kidsOk_snoc; auto.
Qed.

(** X10. Every document that [parse_document] returns is well formed.  Its
    root is a RootNode whose children are Text, NewLine, Monospace, Code,
    Italic, Bold, list-root and Header nodes; Monospace, Code and Header
    nodes have exactly one child, a Text node; a list root holds list items
    only, each with exactly one child; Text and NewLine nodes have no
    children; no node is of the kinds [Void], [SpaceNode], [UnorderedList]
    or [OrderedList].  Every node carries the token of its kind; the text
    of a Text node and the [languageName] of a Code node, which no other
    node has, hold alphanumeric characters (and, for a Text node, spaces)
    only. *)
Theorem parse_document_nodeOk (fuel : nat) (inp : string) (root : ASTNode) :
  parse_document fuel inp = Document root ->
  nodeType root = RootNode /\ nodeOk root = true.
Proof.
  unfold parse_document.
  destruct (Parser.new (Lexer.new inp)) as [p|e] eqn:Hnew; [|discriminate].
  destruct (rootStmt fuel p) as [n q| |] eqn:H; try discriminate.
  intros Hd. injection Hd as <-.
  unfold rootStmt in H. inv_M. split; [reflexivity|].
  cbn [nodeOk arityOk langOk nodeTokenOk].
  match goal with
  | Hl : rootStmt_loop _ _ _ = Return _ _ |- _ =>
      apply rootStmt_loop_nodeOk in Hl;
      [ unfold kidsOk in Hl; rewrite Hl; reflexivity
      | eapply new_tokenOk, Hnew
      | reflexivity ]
  end.
Qed.

Lemma parse_document_nodeOk_witness :
  nodeOk (rootNode
            [Node Header2 (mkToken "##" HEADER2) None [textNode "a b"];
             Node NewLineNode (mkToken nl NEWLINE) None [];
             listRoot [listItem (Node Bold (mkToken "**" BOLD) None [textNode "c"])];
             Node NewLineNode (mkToken nl NEWLINE) None [];
             Node Code (mkToken "```" CODE) (Some "js") [textNode "x 1"]])
  = true.
Proof.
  refine (proj2 (parse_document_nodeOk 9
                   ("## a b" ++ nl ++ "- **c**" ++ nl ++ "```js" ++ nl ++ "x 1```")
                   (rootNode
                      [Node Header2 (mkToken "##" HEADER2) None [textNode "a b"];
                       Node NewLineNode (mkToken nl NEWLINE) None [];
                       listRoot [listItem (Node Bold (mkToken "**" BOLD) None
                                             [textNode "c"])];
                       Node NewLineNode (mkToken nl NEWLINE) None [];
                       Node Code (mkToken "```" CODE) (Some "js") [textNode "x 1"]])
                   _)).
  vm_compute. reflexivity.
Defined.

(** ** Header lines and monospace spans *)

(** X11. [headerStmt] returns a node exactly on a header line: a header
    token, a [SPACE] token and a run of [STRING] and [SPACE] tokens (given
    fuel for the run).  The node has the level of the header token, carries
    that token, and has one child, a Text node with the concatenated run:
    the separating space is not part of the text, and the text ends at the
    first token that is neither [STRING] nor [SPACE]. *)
Theorem headerStmt_header_line :
  (forall (fuel : nat) (p p' : t) (node : ASTNode),
     headerStmt fuel p = Return node p' ->
     exists ty body,
       headerLine p ty body p' /\
       node = Node ty (currentToken p) None [textNode (joinText body)]) /\
  (forall (fuel : nat) (p p' : t) (ty : NodeType) (body : list Token),
     headerLine p ty body p' ->
     (length body < fuel)%nat ->
     headerStmt fuel p
     = Return (Node ty (currentToken p) None [textNode (joinText body)]) p').
Proof.
  split.
  - intros fuel p p' node H. unfold headerStmt in H. inv_M.
    destruct (headers (tokenType (currentToken p))) as [ty|] eqn:Hh; inv_M.
    repeat match goal with
           | He : eat _ _ = Return _ _ |- _ =>
               apply eat_Return in He; destruct He as [? ?]
           end.
    match goal with
    | Hn : allCharsStmt _ _ = Return _ _ |- _ =>
        apply allCharsStmt_inv in Hn; destruct Hn as (body & Hrun & ->)
    end.
    exists ty, body. split; [|reflexivity].
    unfold headerLine. do 2 eexists. repeat split; eassumption.
  - intros fuel p p' ty body (p1 & p2 & Hh & Hn & Hsp & Hn1 & Hrun) Hf.
    unfold headerStmt, bind at 1, current. rewrite Hh.
    unfold bind at 1. rewrite eat_match by reflexivity. rewrite Hn.
    unfold bind at 1. rewrite eat_match by assumption. rewrite Hn1.
    unfold bind at 1. rewrite (allCharsStmt_run p2 p' body) by assumption.
    reflexivity.
Qed.

Lemma headerStmt_header_line_witness :
  exists ty body p',
    headerLine (parserOn "## a b_c_") ty body p' /\
    Node Header2 (mkToken "##" HEADER2) None [textNode "a b"]
    = Node ty (mkToken "##" HEADER2) None [textNode (joinText body)].
Proof.
  pose (p' := {| lexer := {| Lexer.position := 7; Lexer.input := "## a b_c_";
                             Lexer.currentChar := Char "c";
                             Lexer.currentToken := mkToken "_" ITALIC |};
                 currentToken := mkToken "_" ITALIC |}).
  destruct (proj1 headerStmt_header_line 4%nat (parserOn "## a b_c_") p'
              (Node Header2 (mkToken "##" HEADER2) None [textNode "a b"]) eq_refl)
    as (ty & body & H1 & H2).
  exists ty, body, p'. split; [exact H1 | exact H2].
Defined.

(** X12. [monoSpaceStmt] returns a node exactly on a monospace span: a
    backtick token, a run of [STRING] and [SPACE] tokens, and a backtick
    token (given fuel for the run).  The node is a Monospace node with one
    child, a Text node with the concatenated run; the run may be empty. *)
Theorem monoSpaceStmt_span :
  (forall (fuel : nat) (p p' : t) (node : ASTNode),
     monoSpaceStmt fuel p = Return node p' ->
     exists body,
       monoSpan p body p' /\
       node = Node Monospace (currentToken p) None [textNode (joinText body)]) /\
  (forall (fuel : nat) (p p' : t) (body : list Token),
     monoSpan p body p' ->
     (length body < fuel)%nat ->
     monoSpaceStmt fuel p
     = Return (Node Monospace (currentToken p) None [textNode (joinText body)]) p').
Proof.
  split.
  - intros fuel p p' node H. unfold monoSpaceStmt in H. inv_M.
    repeat match goal with
           | He : eat _ _ = Return _ _ |- _ =>
               apply eat_Return in He; destruct He as [? ?]
           end.
    match goal with
    | Hn : allCharsStmt _ _ = Return _ _ |- _ =>
        apply allCharsStmt_inv in Hn; destruct Hn as (body & Hrun & ->)
    end.
    exists body. split; [|reflexivity].
    unfold monoSpan. do 2 eexists. repeat split; eassumption.
  - intros fuel p p' body (p1 & p2 & Hm & Hn & Hrun & Hm2 & Hn2) Hf.
    unfold monoSpaceStmt, bind at 1, current.
    unfold bind at 1. rewrite eat_match by assumption. rewrite Hn.
    unfold bind at 1. rewrite (allCharsStmt_run p1 p2 body) by assumption.
    unfold bind at 1. rewrite eat_match by assumption. rewrite Hn2.
    reflexivity.
Qed.

Lemma monoSpaceStmt_span_witness :
  exists body p',
    monoSpan (parserOn "``") body p' /\
    Node Monospace (mkToken "`" MONOSPACE) None [textNode ""]
    = Node Monospace (mkToken "`" MONOSPACE) None [textNode (joinText body)].
Proof.
  pose (p' := {| lexer := {| Lexer.position := 1; Lexer.input := "``";
                             Lexer.currentChar := Char NUL;
                             Lexer.currentToken := eofToken |};
                 currentToken := eofToken |}).
  destruct (proj1 monoSpaceStmt_span 1%nat (parserOn "``") p'
              (Node Monospace (mkToken "`" MONOSPACE) None [textNode ""]) eq_refl)
    as (body & H1 & H2).
  exists body, p'. split; [exact H1 | exact H2].
Defined.

(** ** A newline after a word *)

(** X13. At the top level, a [NEWLINE] token that comes right after a
    [STRING] token is consumed without a node: [formatStmt], entered on the
    [STRING] token, returns the Text node of that token alone and leaves
    the parser after the [NEWLINE] ([textStmt] drops the NewLine node of
    its recursive call). *)
Theorem formatStmt_drops_newline (fuel : nat) (p p1 p2 : t) :
  tokenType (currentToken p) = STRING ->
  Parser.new (lexer p) = Ok p1 ->
  tokenType (currentToken p1) = NEWLINE ->
  Parser.new (lexer p1) = Ok p2 ->
  (2 <= fuel)%nat ->
  formatStmt fuel p = Return (Node StringNode (currentToken p) None []) p2.
Proof.
  intros Hs Hn Hnl Hn1 Hf. destruct fuel as [|[|fuel]]; try lia.
  unfold formatStmt, bind at 1, current. rewrite Hs.
  cbn [textStmt]. unfold bind at 1, current. rewrite Hs.
  unfold bind at 1. rewrite eat_match by assumption. rewrite Hn.
  unfold bind at 1, current. unfold bind at 1. rewrite Hnl.
  unfold bind at 1. rewrite eat_match by assumption. rewrite Hn1.
  reflexivity.
Qed.

Lemma formatStmt_drops_newline_witness :
  parse_document 4 ("a" ++ nl ++ "b") = Document (rootNode [textNode "a"; textNode "b"]) /\
  formatStmt 2 (parserOn ("a" ++ nl ++ "b"))
  = Return (textNode "a")
      {| lexer := {| Lexer.position := 2; Lexer.input := "a" ++ nl ++ "b";
                     Lexer.currentChar := Char NUL;
                     Lexer.currentToken := mkToken "b" STRING |};
         currentToken := mkToken "b" STRING |}.
Proof.
  split; [reflexivity|].
  apply (formatStmt_drops_newline 2 (parserOn ("a" ++ nl ++ "b"))
           {| lexer := {| Lexer.position := 2; Lexer.input := "a" ++ nl ++ "b";
                          Lexer.currentChar := Char "b";
                          Lexer.currentToken := mkToken nl NEWLINE |};
              currentToken := mkToken nl NEWLINE |}).
  - reflexivity.
  - reflexivity.
  - reflexivity.
  - reflexivity.
  - lia.
Defined.

(** ** A text run that never ends *)

Lemma stuck_new (p : t) :
  stuck (lexer p) ->
  exists p1, Parser.new (lexer p) = Ok p1 /\ stuck (lexer p1) /\
             currentToken p1 = mkToken "" STRING.
Proof.
  intros (c & Hc & Hcase & Hal).
  unfold Parser.new.
  rewrite (LexerFacts.getNextToken_default_not_alnum (lexer p) c Hc Hcase Hal).
  eexists. split; [reflexivity|]. split; [|reflexivity].
  exists c. simpl. auto.
Qed.

Lemma allCharsStmt_loop_stuck (fuel : nat) :
  forall (v : string) (p : t),
    stuck (lexer p) -> isText (currentToken p) = true ->
    allCharsStmt_loop fuel v p = OutOfFuel.
Proof.
  induction fuel as [|fuel IH]; intros v p Hst Htx; [reflexivity|].
  cbn [allCharsStmt_loop]. unfold bind at 1, current.
  fold (isText (currentToken p)). rewrite Htx.
  unfold bind. rewrite eat_match by reflexivity.
  destruct (stuck_new p Hst) as (p1 & Hn & Hst1 & Htok). rewrite Hn.
  apply IH; [exact Hst1|]. rewrite Htok. reflexivity.
Qed.

(** X14. A text run never ends on a character without a token.  When the
    lookahead is a [STRING] or [SPACE] token and the lexer stands on a
    character that is not alphanumeric and has no [case] (['!'], ['.'],
    ...), the loop of [allCharsStmt] goes on for ever: the lexer keeps
    returning an empty [STRING] token, and no amount of fuel lets the call
    return or throw.  The same holds for [rootStmt] entered on a [SPACE]
    token there. *)
Theorem allCharsStmt_never_ends (p : t) :
  stuck (lexer p) ->
  isText (currentToken p) = true ->
  (forall fuel : nat, allCharsStmt fuel p = OutOfFuel) /\
  (tokenType (currentToken p) = SPACE ->
   forall fuel : nat, rootStmt fuel p = OutOfFuel).
Proof.
  intros Hst Htx.
  assert (Hall : forall fuel : nat, allCharsStmt fuel p = OutOfFuel).
  { intros fuel. unfold allCharsStmt, bind.
    rewrite allCharsStmt_loop_stuck by assumption. reflexivity. }
  split; [exact Hall|].
  intros Hsp [|fuel]; [reflexivity|].
  unfold rootStmt, bind at 1. cbn [rootStmt_loop]. unfold bind at 1, current.
  rewrite Hsp. cbn [TokenType_eqb negb]. cbv iota.
  unfold bind at 1. unfold formatStmt, bind at 1, current. rewrite Hsp.
  rewrite Hall. reflexivity.
Qed.

Lemma allCharsStmt_never_ends_witness :
  parse_document 40 " !" = Unfinished.
Proof.
  unfold parse_document.
  change (Parser.new (Lexer.new " !")) with (Ok (parserOn " !")). cbv iota.
  rewrite (proj2 (allCharsStmt_never_ends (parserOn " !")
                    (ex_intro _ "!"%char (conj eq_refl (conj eq_refl eq_refl)))
                    eq_refl) eq_refl 40%nat).
  reflexivity.
Defined.

End ParserMore.

(** * Unterminated bold (C6) *)

Module BoldFacts.
Import Parser ParserFacts.

(** ** A lone asterisk inside the span *)


(** ** A bold span returns only on a closing token *)




Lemma tokens_snoc (n : nat) :
  forall (l l1 l2 : Lexer.t) (ts : list Token) (tok : Token),
    Lexer.tokens n l = Ok (ts, l1) ->
    Lexer.getNextToken l1 = Ok (tok, l2) ->
    Lexer.tokens (S n) l = Ok ((ts ++ [tok])%list, l2).
Proof.
  induction n as [|n IH]; intros l l1 l2 ts tok Ht Hg.
  - injection Ht as <- <-. simpl. rewrite Hg. reflexivity.
  - cbn [Lexer.tokens] in Ht.
    destruct (Lexer.getNextToken l) as [[t0 l0]|e] eqn:Hg0; [|discriminate].
    destruct (Lexer.tokens n l0) as [[ts0 l3]|e] eqn:Ht0; [|discriminate].
    injection Ht as <- <-.
    pose proof (IH l0 l3 l2 ts0 tok Ht0 Hg) as Hs.
    change (Lexer.tokens (S (S n)) l) with
      (match Lexer.getNextToken l with
       | Throw e => Throw e
       | Ok (tok, l') =>
           match Lexer.tokens (S n) l' with
           | Ok (ts, l'') => Ok (tok :: ts, l'')
           | Throw e => Throw e
           end
       end).
    rewrite Hg0, Hs. reflexivity.
Qed.

Lemma noBoldAhead_next (l l' : Lexer.t) (tok : Token) :
  noBoldAhead l -> Lexer.getNextToken l = Ok (tok, l') ->
  tokenType tok <> BOLD /\ noBoldAhead l'.
Proof.
  intros Hno Hg. split.
  - apply (Hno 0%nat [] l l' tok); [reflexivity | exact Hg].
  - intros n ts l1 l2 t Ht Hg1.
    apply (Hno (S n) (tok :: ts) l1 l2 t); [|exact Hg1].
    cbn [Lexer.tokens]. rewrite Hg, Ht. reflexivity.
Qed.

(** Along a path the parser meets only tokens that the lexer returned. *)
Lemma path_noBoldAhead (p p' : t) (ts : list Token) :
  path p ts p' -> noBoldAhead (lexer p) -> noBoldAhead (lexer p').
Proof.
  induction 1 as [p | p p1 p' ts He Hn Hp IH]; intros Hno; [exact Hno|].
  apply IH. apply ParserMore.new_getNextToken in Hn.
  apply (noBoldAhead_next _ _ _ Hno Hn).
Qed.





(** ** Inputs that hold no second ["**"] *)






(** ** The error at the closing [eat] *)


(** ** Plain text up to the end of the input *)









End BoldFacts.

(** * The HTML of a document *)

Module HtmlFacts.
Import Html.






(** The [for] loop of [toHtml], on its own. *)
Lemma toHtml_unfold (ty : NodeType) (tok : Token) (lang : option string)
    (ch : list ASTNode) (incSize : number) :
  toHtml (Node ty tok lang ch) incSize
  = let output :=
      fold_left
        (fun out child =>
           out ++ renderChild toHtml (fillSpace incSize) (incSize + 3)%Q child)
        ch
        match ty with RootNode => "<html>" ++ nl | _ => "" end in
    match ty with RootNode => output ++ nl ++ "</html>" | _ => output end.
Proof.
  cbn [toHtml]. cbv zeta.
  generalize (match ty with RootNode => "<html>" ++ nl | _ => "" end).
  assert (Heach : forall cs out,
    (fix each (cs : list ASTNode) (output : string) {struct cs} : string :=
       match cs with
       | [] => output
       | child :: cs' =>
           each cs' (output ++ renderChild toHtml (fillSpace incSize)
                                 (incSize + 3)%Q child)
       end) cs out
    = fold_left
        (fun out child =>
           out ++ renderChild toHtml (fillSpace incSize) (incSize + 3)%Q child)
        cs out).
  { induction cs as [|c cs IH]; intros out; simpl; [reflexivity|]. apply IH. }
  intros start. rewrite Heach. reflexivity.
Qed.

Lemma fold_skip (f : ASTNode -> string) (c : ASTNode) (pre post : list ASTNode) :
  f c = "" ->
  forall out,
    fold_left (fun out child => out ++ f child) (pre ++ c :: post) out
    = fold_left (fun out child => out ++ f child) (pre ++ post) out.
Proof.
  intros Hc out. rewrite !fold_left_app. simpl.
  rewrite Hc, ParserFacts.append_empty_r. reflexivity.
Qed.

(** X16. [toHtml] renders nothing for a child of a kind it has no [case]
    for: a Code node (so the fenced code blocks of a document do not appear
    in its HTML), a Void node, a nested RootNode, an [UnorderedList] or
    [OrderedList] node.  The HTML of a node with such a child, anywhere
    among its children, is the HTML of the node without it. *)
Theorem toHtml_skips_code (ty : NodeType) (tok : Token) (lang : option string)
    (pre post : list ASTNode) (c : ASTNode) (incSize : number) :
  notRendered (nodeType c) = true ->
  toHtml (Node ty tok lang (pre ++ c :: post)) incSize
  = toHtml (Node ty tok lang (pre ++ post)) incSize.
Proof.
  intros Hc. rewrite !toHtml_unfold. cbv zeta.
  rewrite (fold_skip (renderChild toHtml (fillSpace incSize) (incSize + 3)%Q) c).
  - reflexivity.
  - unfold renderChild. destruct (nodeType c); try discriminate Hc; reflexivity.
Qed.

Lemma toHtml_skips_code_witness :
  toHtml (rootNode [textNode "a";
                    Node Code (mkToken "```" CODE) (Some "js") [textNode "x"];
                    textNode "b"]) 0%Q
  = toHtml (rootNode [textNode "a"; textNode "b"]) 0%Q.
Proof.
  exact (toHtml_skips_code RootNode (mkToken "Root" UNTYPED) None
           [textNode "a"] [textNode "b"]
           (Node Code (mkToken "```" CODE) (Some "js") [textNode "x"]) 0%Q eq_refl).
Defined.

End HtmlFacts.

(** * utils.ts *)

Module UtilsFacts.

Lemma alphaClass_alnumClass (c : ascii) : alphaClass c = true -> alnumClass c = true.
Proof. unfold alphaClass, alnumClass. intros ->. reflexivity. Qed.

Lemma allAlpha_allClass (s : string) : allAlpha s = true -> allClass s = true.
Proof.
  induction s as [|c s IH]; simpl; [reflexivity|]. intros H.
  apply andb_true_iff in H. destruct H as [Hc Hs].
  rewrite (alphaClass_alnumClass c Hc), IH; auto.
Qed.

(** X17. Every string that [isAsciiAlpha] accepts, [isAlphaNumeric] accepts
    too; both reject the empty string, and a digit tells them apart. *)
Theorem isAsciiAlpha_isAlphaNumeric :
  (forall s, isAsciiAlpha s = true -> isAlphaNumeric s = true) /\
  isAsciiAlpha "" = false /\ isAlphaNumeric "" = false /\
  (forall s, isAsciiAlpha (s ++ "7") = false) /\
  isAlphaNumeric "a7" = true.
Proof.
  split; [|split; [|split; [|split]]]; try reflexivity.
  - intros s H. destruct s as [|c s]; [discriminate|].
    apply allAlpha_allClass. exact H.
  - intros s.
    assert (Hall : allAlpha (s ++ "7") = false).
    { induction s as [|c s IH]; simpl; [reflexivity|].
      rewrite IH. apply andb_false_r. }
    destruct s as [|c s]; [reflexivity|]. exact Hall.
Qed.

Lemma isAsciiAlpha_isAlphaNumeric_witness : isAlphaNumeric "Title" = true.
Proof.
  exact (proj1 isAsciiAlpha_isAlphaNumeric "Title" eq_refl).
Defined.

End UtilsFacts.
